(** * cetl: the stream multiplexer and the boundary-aware CSV decoder

    A shallow embedding of two Go packages of the repository:

    - [connector]: [muxReader], the multiplexer that streams an ordered
      list of openers into one pipe while publishing [SrcMeta] snapshots
      and source-boundary events;
    - [transform]: [csvDecoder] and [csvRowIterator], the record decoder
      that reconciles one canonical header with per-source header rows.

    Go's [error] interface is the inductive [error]; a nil error is [None].
    The producer goroutine of the multiplexer is sequential code: it is
    embedded as the list of effects it performs, in program order, and the
    consumer-visible state ([current], the [boundary] channel, the pipe) is
    obtained by replaying that list. *)

From Stdlib Require Import ZArith Strings.Byte.
From stdpp Require Import base decidable option list strings gmap.

Open Scope string_scope.
Open Scope list_scope.

(** ** Errors *)

Inductive error : Type :=
  | EOF                                   (* io.EOF *)
  | ErrClosedPipe                         (* io.ErrClosedPipe *)
  | Canceled                              (* context.Canceled *)
  | ErrFieldCount                         (* csv.ErrFieldCount inside a *csv.ParseError *)
  | ErrNew (msg : string)                 (* errors.New(msg) *)
  | ErrDuplicateEntry (name : string) (h : list string)
      (* fmt.Errorf("duplicate entry %s in header %q", name, h) *)
  | Errorf (msg : string) (cause : error).  (* fmt.Errorf(msg + ": %w", cause) *)

#[global] Instance error_eq_dec : EqDecision error.
Proof. solve_decision. Defined.

(** The text of [err.Error()], where the embedding determines it.  The text
    of a [*csv.ParseError] carries the line of the record, and that of the
    duplicate-entry error the header as [%q] prints it; neither is
    represented here, so these errors, and the errors that wrap them, have
    no text ([None]). *)
Fixpoint Error (err : error) : option string :=
  match err with
  | EOF => Some "EOF"
  | ErrClosedPipe => Some "io: read/write on closed pipe"
  | Canceled => Some "context canceled"
  | ErrFieldCount => None
  | ErrNew msg => Some msg
  | ErrDuplicateEntry _ _ => None
  | Errorf msg cause =>
      match Error cause with
      | Some text => Some (msg +:+ ": " +:+ text)
      | None => None
      end
  end.

(** ** package opener *)

Module opener.

(** What the [io.ReadCloser] of a source does when it is read to its end:
    the successive results [(p[:n], err)] of its [Read] calls.  Once the
    script is used up, [Read] returns [(0, io.EOF)]. *)
Definition ReadCloser : Type := list (list byte * option error).

(** [type Opener interface { Open(ctx) (io.ReadCloser, error); Name() string }] *)
Record Opener : Type := {
  Open : error + ReadCloser;
  Name : string;
}.

End opener.

(** ** package connector *)

Module connector.

(** *** src_aware_streamer.go *)

Record SrcMeta : Type := {
  Name : string;
  ByteOffset : Z;   (* int64 *)
}.

#[global] Instance SrcMeta_eq_dec : EqDecision SrcMeta.
Proof. solve_decision. Defined.

(** The zero value [SrcMeta{}]. *)
Definition SrcMeta_zero : SrcMeta := {| Name := ""; ByteOffset := 0 |}.

(** Two's-complement wrap-around of a 64-bit signed integer. *)
Definition int64 (z : Z) : Z := ((z + 2 ^ 63) mod 2 ^ 64 - 2 ^ 63)%Z.

(** [meta.ByteOffset += int64(n)] *)
Definition advance (meta : SrcMeta) (n : nat) : SrcMeta :=
  {| Name := Name meta; ByteOffset := int64 (ByteOffset meta + Z.of_nat n) |}.

(** *** Channels of capacity one

    [boundary: make(chan SrcMeta, 1)].  A non-empty buffer is a full
    buffer. *)

Record chan (T : Type) : Type := {
  buf : list T;
  closed : bool;
}.
Arguments buf {T} _.
Arguments closed {T} _.

Definition make_chan (T : Type) : chan T := {| buf := []; closed := false |}.

(** The [case ch <- v] of a select is ready when the buffer has room. *)
Definition send_ready {T} (ch : chan T) : bool := bool_decide (length (buf ch) < 1).
(** The [case <-ch] of a select is ready when a value is buffered or the
    channel is closed. *)
Definition recv_ready {T} (ch : chan T) : bool :=
  bool_decide (0 < length (buf ch)) || closed ch.

(** [overwriteLatest]: [for { select { case ch <- v: return; case <-ch: } }].
    With an empty buffer only the send is ready; with a full one only the
    receive, which drops the oldest value and loops. *)
Fixpoint overwriteLatest_buf {T} (q : list T) (v : T) : list T :=
  match q with
  | [] => [v]
  | _ :: q' => overwriteLatest_buf q' v
  end.

Definition overwriteLatest {T} (ch : chan T) (v : T) : chan T :=
  {| buf := overwriteLatest_buf (buf ch) v; closed := closed ch |}.

(** [drainAndCloseChannel]:
    [for { select { case <-ch: default: close(ch); return } }]. *)
Fixpoint drain_buf {T} (q : list T) : list T :=
  match q with
  | [] => []
  | _ :: q' => drain_buf q'
  end.

Definition drainAndCloseChannel {T} (ch : chan T) : chan T :=
  {| buf := drain_buf (buf ch); closed := true |}.

(** *** The pipe, as its reader sees it

    [io.Pipe] is synchronous: a [Write] returns once the reader has taken
    the whole chunk, so the reader receives the chunks in the order they
    were written, and the writer's close error after the last of them.
    [chunks] are the chunks written and not yet taken, [werr] the error
    the write side was closed with ([EOF] for a plain [Close]). *)

Record pipe : Type := {
  chunks : list (list byte);
  werr : option error;
}.

Definition io_Pipe : pipe := {| chunks := []; werr := None |}.

Definition pipe_write (p : pipe) (bs : list byte) : pipe :=
  {| chunks := chunks p ++ [bs]; werr := werr p |}.

(** [pw.CloseWithError(err)]: the first close error is kept. *)
Definition pipe_CloseWithError (p : pipe) (err : error) : pipe :=
  {| chunks := chunks p;
     werr := match werr p with Some e => Some e | None => Some err end |}.

(** [pr.Read(p)] with [len(p) = n]: data of the current chunk, else the
    close error, else it blocks ([None]). *)
Definition pipe_Read (n : nat) (p : pipe)
  : option (list byte * option error * pipe) :=
  match chunks p with
  | c :: cs =>
      let rest := drop n c in
      Some (take n c, None,
            {| chunks := match rest with [] => cs | _ => rest :: cs end;
               werr := werr p |})
  | [] =>
      match werr p with
      | Some e => Some ([], Some e, p)
      | None => None
      end
  end.

(** *** muxReader *)

Record muxReader : Type := {
  pr : pipe;
  current : option SrcMeta;       (* atomic.Value; [None] before any Store *)
  boundary : chan SrcMeta;
}.

(** The value built by [NewMuxReader] before its goroutine has run. *)
Definition muxReader_new : muxReader :=
  {| pr := io_Pipe; current := None; boundary := make_chan SrcMeta |}.

Definition Read (n : nat) (m : muxReader)
  : option (list byte * option error * muxReader) :=
  match pipe_Read n (pr m) with
  | Some (bs, err, p') =>
      Some (bs, err, {| pr := p'; current := current m; boundary := boundary m |})
  | None => None
  end.

Definition Current (m : muxReader) : SrcMeta :=
  match current m with
  | None => SrcMeta_zero
  | Some val => val
  end.

(** [AwaitBoundary(ctx)]: a select over the boundary channel and
    [ctx.Done()].  [ctxErr] is [ctx.Err()] ([None] while the context is
    live); when both cases are ready Go picks one, here by [pick].  [None]
    means that the call blocks. *)
Definition AwaitBoundary (ctxErr : option error) (pick : bool) (m : muxReader)
  : option (SrcMeta * option error * muxReader) :=
  let recv :=
    match buf (boundary m) with
    | meta :: q =>
        (meta, None,
         {| pr := pr m; current := current m;
            boundary := {| buf := q; closed := closed (boundary m) |} |})
    | [] => (SrcMeta_zero, Some EOF, m)
    end in
  match recv_ready (boundary m), ctxErr with
  | true, None => Some recv
  | true, Some e => if pick then Some recv else Some (SrcMeta_zero, Some e, m)
  | false, Some e => Some (SrcMeta_zero, Some e, m)
  | false, None => None
  end.

(** *** The producer goroutine of [NewMuxReader]

    The effects of the goroutine, in program order.  [k] is the position of
    the source in [ops]. *)

Inductive event : Type :=
  | EvOpened (k : nat)                      (* op.Open(ctx) returned a reader *)
  | EvOpenFailed (k : nat) (err : error)    (* op.Open(ctx) returned err *)
  | EvStore (meta : SrcMeta)                (* m.current.Store(meta) *)
  | EvBoundary (k : nat) (meta : SrcMeta)   (* overwriteLatest(m.boundary, meta) *)
  | EvWrite (k : nat) (bs : list byte)      (* m.pw.Write(buf[:n]) succeeded *)
  | EvWriteFailed (k : nat) (werr : error)  (* m.pw.Write(buf[:n]) returned werr *)
  | EvSrcClose (k : nat)                    (* rc.Close() *)
  | EvCloseWithError (err : error)          (* pw.CloseWithError(err) *)
  | EvPipeClose                             (* defer pw.Close() *)
  | EvDrainAndClose.                        (* defer drainAndCloseChannel(m.boundary) *)

(** The consumer may close the read side ([muxReader.Close]) while the
    producer runs; from then on [pw.Write] fails with [io.ErrClosedPipe].
    [patience] is the number of chunks the consumer still takes before it
    does so, [None] when it never closes. *)
Definition patience : Type := option nat.

Definition pw_Write (w : patience) : error + patience :=
  match w with
  | None => inr None
  | Some (S n) => inr (Some n)
  | Some O => inl ErrClosedPipe
  end.

(** How the inner [for] loop over one source is left: [break] on a clean
    end of the source, or [return] from the goroutine. *)
Inductive streamExit : Type :=
  | Break (w : patience)
  | Return.

(** The inner loop [for { n, rerr := rc.Read(buf); ... }] over source [k]. *)
Fixpoint streamLoop (k : nat) (name : string) (rc : opener.ReadCloser)
    (meta : SrcMeta) (w : patience) : list event * streamExit :=
  match rc with
  | [] => ([], Break w)                       (* Read gives (0, io.EOF) *)
  | (bs, rerr) :: rc' =>
      let n := length bs in
      let fwd :=
        if bool_decide (0 < n) then
          let meta' := advance meta n in
          match pw_Write w with
          | inl werr =>
              inl [EvWriteFailed k werr; EvSrcClose k; EvCloseWithError werr]
          | inr w' => inr ([EvWrite k bs; EvStore meta'], meta', w')
          end
        else inr ([], meta, w) in
      match fwd with
      | inl evs => (evs, Return)
      | inr (evs, meta', w') =>
          match rerr with
          | Some e =>
              if decide (e = EOF) then (evs, Break w')
              else (evs ++ [EvSrcClose k;
                            EvCloseWithError (Errorf ("read " +:+ name) e)],
                    Return)
          | None =>
              let '(evs', exit) := streamLoop k name rc' meta' w' in
              (evs ++ evs', exit)
          end
      end
  end.

(** The outer loop [for _, op := range ops], from position [k] on. *)
Fixpoint muxLoop (k : nat) (ops : list opener.Opener) (w : patience) : list event :=
  match ops with
  | [] => []
  | op :: ops' =>
      match opener.Open op with
      | inl err =>
          [EvOpenFailed k err;
           EvCloseWithError (Errorf ("open " +:+ opener.Name op) err)]
      | inr rc =>
          let meta := {| Name := opener.Name op; ByteOffset := 0 |} in
          let '(evs, exit) := streamLoop k (opener.Name op) rc meta w in
          EvOpened k :: EvStore meta :: EvBoundary k meta :: evs ++
          match exit with
          | Break w' => EvSrcClose k :: muxLoop (S k) ops' w'
          | Return => []
          end
      end
  end.

(** The whole goroutine: the loop, then the deferred calls, last in first
    out. *)
Definition producer (ops : list opener.Opener) (w : patience) : list event :=
  muxLoop 0 ops w ++ [EvPipeClose; EvDrainAndClose].

(** The effect of one producer event on what the consumer can observe. *)
Definition apply_event (m : muxReader) (ev : event) : muxReader :=
  match ev with
  | EvStore meta =>
      {| pr := pr m; current := Some meta; boundary := boundary m |}
  | EvBoundary _ meta =>
      {| pr := pr m; current := current m;
         boundary := overwriteLatest (boundary m) meta |}
  | EvWrite _ bs =>
      {| pr := pipe_write (pr m) bs; current := current m; boundary := boundary m |}
  | EvCloseWithError err =>
      {| pr := pipe_CloseWithError (pr m) err; current := current m;
         boundary := boundary m |}
  | EvPipeClose =>
      {| pr := pipe_CloseWithError (pr m) EOF; current := current m;
         boundary := boundary m |}
  | EvDrainAndClose =>
      {| pr := pr m; current := current m;
         boundary := drainAndCloseChannel (boundary m) |}
  | EvOpened _ | EvOpenFailed _ _ | EvWriteFailed _ _ | EvSrcClose _ => m
  end.

Definition run (evs : list event) (m : muxReader) : muxReader :=
  foldl apply_event m evs.

(** [NewMuxReader(ctx, ops)] once its goroutine has finished, for a consumer
    of the given patience. *)
Definition NewMuxReader (ops : list opener.Opener) (w : patience) : muxReader :=
  run (producer ops w) muxReader_new.

(** Reading the stream to its end as [io.ReadAll] and [io.Copy] do: [Read]
    with a buffer of [n] bytes until an error comes back.  The result is the
    bytes obtained and that error; [None] when [fuel] calls were not enough
    or a call blocks. *)
Fixpoint readToEnd (fuel n : nat) (m : muxReader) : option (list byte * error) :=
  match fuel with
  | O => None
  | S fuel' =>
      match Read n m with
      | None => None
      | Some (bs, Some e, _) => Some (bs, e)
      | Some (bs, None, m') =>
          match readToEnd fuel' n m' with
          | Some (bs', e) => Some (bs ++ bs', e)
          | None => None
          end
      end
  end.

(** Projections of a trace. *)
Definition boundaries (evs : list event) : list SrcMeta :=
  omap (fun ev => match ev with EvBoundary _ meta => Some meta | _ => None end) evs.

Definition opened (evs : list event) : list nat :=
  omap (fun ev => match ev with EvOpened k => Some k | _ => None end) evs.

Definition written_chunks (evs : list event) : list (list byte) :=
  omap (fun ev => match ev with EvWrite _ bs => Some bs | _ => None end) evs.

Definition written (evs : list event) : list byte := concat (written_chunks evs).

(** The error the write side of the pipe ends up closed with: that of the
    first close. *)
Fixpoint terminal (evs : list event) : option error :=
  match evs with
  | [] => None
  | EvCloseWithError err :: _ => Some err
  | EvPipeClose :: _ => Some EOF
  | _ :: evs' => terminal evs'
  end.

(** A number of [Read] calls that reaches the end of what the pipe holds. *)
Definition reads_needed (m : muxReader) : nat :=
  S (length (concat (chunks (pr m))) + length (chunks (pr m))).

(** The boundary event of a source. *)
Definition boundary_of (op : opener.Opener) : SrcMeta :=
  {| Name := opener.Name op; ByteOffset := 0 |}.

(** The bytes a reader hands out before its first [io.EOF] or error. *)
Fixpoint payload (rc : opener.ReadCloser) : list byte :=
  match rc with
  | [] => []
  | (bs, None) :: rc' => bs ++ payload rc'
  | (bs, Some _) :: _ => bs
  end.

(** The error that ends the reading of a source: that of the first [Read]
    that returns one, [io.EOF] when the script runs out. *)
Fixpoint read_error (rc : opener.ReadCloser) : error :=
  match rc with
  | [] => EOF
  | (_, None) :: rc' => read_error rc'
  | (_, Some e) :: _ => e
  end.

(** The events the inner loop over source [k] can perform. *)
Definition stream_event (k : nat) (ev : event) : Prop :=
  match ev with
  | EvWrite j _ | EvWriteFailed j _ | EvSrcClose j => j = k
  | EvStore _ | EvCloseWithError _ => True
  | _ => False
  end.

(** A reader that reaches [io.EOF] without any other error. *)
Fixpoint reads_clean (rc : opener.ReadCloser) : bool :=
  match rc with
  | [] => true
  | (_, None) :: rc' => reads_clean rc'
  | (_, Some e) :: _ => bool_decide (e = EOF)
  end.

(** A source that opens and reads without error, and what it delivers. *)
Definition source_clean (op : opener.Opener) : bool :=
  match opener.Open op with
  | inl _ => false
  | inr rc => reads_clean rc
  end.

Definition source_payload (op : opener.Opener) : list byte :=
  match opener.Open op with
  | inl _ => []
  | inr rc => payload rc
  end.

(** *** A consumer that waits for every boundary

    What reaches a consumer that sits in [AwaitBoundary], under a live
    context, while the producer runs: after each effect of the producer the
    pending call returns if the channel has something to receive.  A chunk
    is delivered when its [pw.Write] returns, the pipe being synchronous.
    A call that returns an error ([io.EOF] once the channel is closed)
    delivers nothing. *)
Inductive delivery : Type :=
  | GotBoundary (meta : SrcMeta)           (* AwaitBoundary returned (meta, nil) *)
  | GotBytes (k : nat) (bs : list byte).   (* a chunk of source [k] was read *)

Fixpoint deliveries (evs : list event) (m : muxReader) : list delivery :=
  match evs with
  | [] => []
  | ev :: evs' =>
      let m1 := apply_event m ev in
      let chunk := match ev with EvWrite k bs => [GotBytes k bs] | _ => [] end in
      match AwaitBoundary None true m1 with
      | Some (meta, None, m2) => chunk ++ GotBoundary meta :: deliveries evs' m2
      | _ => chunk ++ deliveries evs' m1
      end
  end.

(** What one effect of the producer, taken alone, would hand over: the
    value passed to [overwriteLatest], the chunk passed to [pw.Write]. *)
Definition delivered (ev : event) : list delivery :=
  match ev with
  | EvBoundary _ meta => [GotBoundary meta]
  | EvWrite k bs => [GotBytes k bs]
  | _ => []
  end.

(** The boundaries among the deliveries. *)
Definition received (ds : list delivery) : list SrcMeta :=
  omap (fun d => match d with GotBoundary meta => Some meta | _ => None end) ds.

End connector.

(** ** package transform *)

Module transform.

Import connector.

(** *** The input of a decode session

    The decoder never looks at bytes: it calls [csvReader.Read()] and right
    after it [srcAwareStream.Current()].  What it can observe of a
    [connector.SrcAwareStreamer] wrapped in a [csv.Reader] is therefore, for
    each row of the merged stream, the outcome of parsing that row and the
    metadata published at that moment, which depends on how far the producer
    has run ahead.  [now] is what [Current()] returns at present and [final]
    what it returns once the stream has reached its end; after the last row
    every read is [io.EOF]. *)

Inductive rawRow : Type :=
  | RawRecord (fields : list string)   (* a row that parses *)
  | RawError (err : error).            (* a malformed row, or a failed read *)

Record SrcAwareStreamer : Type := {
  feed : list (rawRow * SrcMeta);
  now : SrcMeta;
  final : SrcMeta;
}.

Definition Current (rc : SrcAwareStreamer) : SrcMeta := now rc.

(** The next row of the stream, [None] at its end. *)
Definition next_row (rc : SrcAwareStreamer) : option rawRow * SrcAwareStreamer :=
  match feed rc with
  | (r, meta) :: rest => (Some r, {| feed := rest; now := meta; final := final rc |})
  | [] => (None, {| feed := []; now := final rc; final := final rc |})
  end.

(** [encoding/csv.Reader], with the fields [Decode] sets. *)
Record csvReader : Type := {
  r : SrcAwareStreamer;       (* the wrapped reader *)
  Comma : Z;                  (* rune *)
  FieldsPerRecord : Z;        (* int *)
}.

Definition csv_NewReader (rc : SrcAwareStreamer) : csvReader :=
  {| r := rc; Comma := 44; FieldsPerRecord := 0 |}.

(** [csvReader.Read()]: a positive [FieldsPerRecord] is enforced, a zero one
    is set from the first record. *)
Definition csv_Read (rd : csvReader) : list string * option error * csvReader :=
  let '(res, rc) := next_row (r rd) in
  let rd' := {| r := rc; Comma := Comma rd; FieldsPerRecord := FieldsPerRecord rd |} in
  match res with
  | None => ([], Some EOF, rd')
  | Some (RawError e) => ([], Some e, rd')
  | Some (RawRecord fields) =>
      let n := Z.of_nat (length fields) in
      if bool_decide (0 < FieldsPerRecord rd)%Z then
        if bool_decide (n = FieldsPerRecord rd) then (fields, None, rd')
        else (fields, Some ErrFieldCount, rd')
      else if bool_decide (FieldsPerRecord rd = 0%Z) then
        (fields, None, {| r := rc; Comma := Comma rd; FieldsPerRecord := n |})
      else (fields, None, rd')
  end.

(** *** csv_decoder.go *)

Record CSVDecoderOptions : Type := {
  opt_Comma : Z;                      (* Comma rune *)
  opt_Header : option (list string);  (* Header []string, [None] for nil *)
}.

Record csvDecoder : Type := {
  comma : Z;
  d_header : list string;
}.

Definition NewCSVDecoder (opt : CSVDecoderOptions) : csvDecoder :=
  let optComma := if bool_decide (opt_Comma opt ≠ 0%Z) then opt_Comma opt else 44%Z in
  let optHeader := match opt_Header opt with Some h => h | None => [] end in
  {| comma := optComma; d_header := optHeader |}.

Record csvRowIterator : Type := {
  csvReader_ : csvReader;
  (* srcAwareStream is the reader wrapped by csvReader_, see [srcAwareStream] *)
  header : list string;
  atStart : bool;
  hasPending : bool;
  invertedIndex : gmap string nat;
  decoderError : option error;
  current : list string;
  pending : list string;
  currentSrcMeta : SrcMeta;
  pendingSrcMeta : SrcMeta;
  lastSourceMeta : SrcMeta;
}.

(** [it.srcAwareStream] and the reader inside [it.csvReader] are one object. *)
Definition srcAwareStream (it : csvRowIterator) : SrcAwareStreamer := r (csvReader_ it).

(** [validateHeader]: the loop over [h] with the set of names seen so far. *)
Fixpoint validateHeader_loop (h : list string) (names : gset string)
    (rest : list string) : option error :=
  match rest with
  | [] => None
  | name :: rest' =>
      if decide (name ∈ names) then Some (ErrDuplicateEntry name h)
      else validateHeader_loop h ({[name]} ∪ names) rest'
  end.

Definition validateHeader (h : list string) : option error :=
  validateHeader_loop h ∅ h.

(** [buildIndex]: [for idx, name := range names { invIndex[name] = idx }]. *)
Fixpoint buildIndex_loop (invIndex : gmap string nat) (idx : nat)
    (names : list string) : gmap string nat :=
  match names with
  | [] => invIndex
  | name :: names' => buildIndex_loop (<[name := idx]> invIndex) (S idx) names'
  end.

Definition buildIndex (names : list string) : gmap string nat :=
  buildIndex_loop ∅ 0 names.

(** [csvDecoder.Decode]; the goroutine that closes [rc] when [ctx] is
    cancelled takes no part in what the iterator computes. *)
Definition Decode (d : csvDecoder) (rc : SrcAwareStreamer) : error + csvRowIterator :=
  let csvReader0 :=
    {| r := rc; Comma := comma d; FieldsPerRecord := 0 |} in
  let csvHeaderInferred := bool_decide (length (d_header d) = 0) in
  let inferred : error + (list string * csvReader) :=
    if csvHeaderInferred then
      match csv_Read csvReader0 with
      | (_, Some err, _) =>
          inl (Errorf "unable to infer header from first record" err)
      | (firstRec, None, rd) => inr (firstRec, rd)
      end
    else inr (d_header d, csvReader0) in
  match inferred with
  | inl err => inl err
  | inr (csvHeader, rd) =>
      let rd' := {| r := r rd; Comma := Comma rd;
                    FieldsPerRecord := Z.of_nat (length csvHeader) |} in
      match validateHeader csvHeader with
      | Some err => inl (Errorf "malformed header" err)
      | None =>
          inr {| csvReader_ := rd';
                 header := csvHeader;
                 atStart := false;
                 hasPending := false;
                 invertedIndex := buildIndex csvHeader;
                 decoderError := None;
                 current := replicate (length csvHeader) "";
                 pending := [];
                 currentSrcMeta := SrcMeta_zero;
                 pendingSrcMeta := SrcMeta_zero;
                 lastSourceMeta := Current (r rd') |}
      end
  end.

(** [isheader]: same length and the same name at every index. *)
Definition isheader (it : csvRowIterator) (row : list string) : bool :=
  let hSize := length (header it) in
  let rSize := length row in
  if bool_decide (hSize ≠ rSize) then false
  else forallb (fun i => bool_decide (header it !! i = row !! i)) (seq 0 hSize).

Definition isSourceStart (it : csvRowIterator) (meta : SrcMeta) : bool :=
  if bool_decide (Name (lastSourceMeta it) = "") then true
  else if bool_decide (Name meta ≠ Name (lastSourceMeta it)) then true
  else bool_decide (ByteOffset meta = 0%Z) &&
       bool_decide (ByteOffset (lastSourceMeta it) ≠ 0%Z).

(** Field assignments on the iterator. *)
Definition set_csvReader (it : csvRowIterator) (rd : csvReader) : csvRowIterator :=
  {| csvReader_ := rd; header := header it; atStart := atStart it;
     hasPending := hasPending it; invertedIndex := invertedIndex it;
     decoderError := decoderError it; current := current it;
     pending := pending it; currentSrcMeta := currentSrcMeta it;
     pendingSrcMeta := pendingSrcMeta it; lastSourceMeta := lastSourceMeta it |}.

Definition set_atStart (it : csvRowIterator) (b : bool) : csvRowIterator :=
  {| csvReader_ := csvReader_ it; header := header it; atStart := b;
     hasPending := hasPending it; invertedIndex := invertedIndex it;
     decoderError := decoderError it; current := current it;
     pending := pending it; currentSrcMeta := currentSrcMeta it;
     pendingSrcMeta := pendingSrcMeta it; lastSourceMeta := lastSourceMeta it |}.

Definition set_hasPending (it : csvRowIterator) (b : bool) : csvRowIterator :=
  {| csvReader_ := csvReader_ it; header := header it; atStart := atStart it;
     hasPending := b; invertedIndex := invertedIndex it;
     decoderError := decoderError it; current := current it;
     pending := pending it; currentSrcMeta := currentSrcMeta it;
     pendingSrcMeta := pendingSrcMeta it; lastSourceMeta := lastSourceMeta it |}.

Definition set_decoderError (it : csvRowIterator) (err : error) : csvRowIterator :=
  {| csvReader_ := csvReader_ it; header := header it; atStart := atStart it;
     hasPending := hasPending it; invertedIndex := invertedIndex it;
     decoderError := Some err; current := current it;
     pending := pending it; currentSrcMeta := currentSrcMeta it;
     pendingSrcMeta := pendingSrcMeta it; lastSourceMeta := lastSourceMeta it |}.

Definition set_current (it : csvRowIterator) (row : list string) (meta : SrcMeta)
  : csvRowIterator :=
  {| csvReader_ := csvReader_ it; header := header it; atStart := atStart it;
     hasPending := hasPending it; invertedIndex := invertedIndex it;
     decoderError := decoderError it; current := row;
     pending := pending it; currentSrcMeta := meta;
     pendingSrcMeta := pendingSrcMeta it; lastSourceMeta := lastSourceMeta it |}.

Definition set_pending (it : csvRowIterator) (row : list string) (meta : SrcMeta)
  : csvRowIterator :=
  {| csvReader_ := csvReader_ it; header := header it; atStart := atStart it;
     hasPending := hasPending it; invertedIndex := invertedIndex it;
     decoderError := decoderError it; current := current it;
     pending := row; currentSrcMeta := currentSrcMeta it;
     pendingSrcMeta := meta; lastSourceMeta := lastSourceMeta it |}.

Definition set_lastSourceMeta (it : csvRowIterator) (meta : SrcMeta) : csvRowIterator :=
  {| csvReader_ := csvReader_ it; header := header it; atStart := atStart it;
     hasPending := hasPending it; invertedIndex := invertedIndex it;
     decoderError := decoderError it; current := current it;
     pending := pending it; currentSrcMeta := currentSrcMeta it;
     pendingSrcMeta := pendingSrcMeta it; lastSourceMeta := meta |}.

(** One pass through the body of the [for] loop of [Next]: either [continue]
    or [return b]. *)
Inductive loopStep : Type :=
  | Continue (it : csvRowIterator)
  | Ret (b : bool) (it : csvRowIterator).

Definition Next_body (it : csvRowIterator) : loopStep :=
  (* 1) Serve any pending record from the pushback buffer. *)
  if hasPending it then
    Ret true (set_hasPending (set_current it (pending it) (pendingSrcMeta it)) false)
  else
    let '(row, err, rd) := csv_Read (csvReader_ it) in
    let it := set_csvReader it rd in
    let meta := Current (srcAwareStream it) in
    let it := if isSourceStart it meta then set_atStart it true else it in
    if atStart it then
      match err with
      | Some e =>
          if decide (e = EOF) then
            Continue (set_lastSourceMeta (set_atStart it false) meta)
          else Ret false (set_decoderError it e)
      | None =>
          if isheader it row then
            Continue (set_lastSourceMeta (set_atStart it false) meta)
          else
            Continue (set_atStart (set_hasPending (set_pending it row meta) true) false)
      end
    else
      (* 3) Normal path: read the next data row. *)
      match err with
      | Some e =>
          if decide (e = EOF) then Ret false it
          else Ret false (set_decoderError it e)
      | None => Ret true (set_lastSourceMeta (set_current it row meta) meta)
      end.

(** The loop [for { ... }], run for at most [fuel] passes. *)
Fixpoint Next_loop (fuel : nat) (it : csvRowIterator) : option (bool * csvRowIterator) :=
  match fuel with
  | O => None
  | S fuel' =>
      match Next_body it with
      | Ret b it' => Some (b, it')
      | Continue it' => Next_loop fuel' it'
      end
  end.

(** [csvRowIterator.Next]; [None] when the loop has not returned within
    [fuel] passes. *)
Definition Next (fuel : nat) (it : csvRowIterator) : option (bool * csvRowIterator) :=
  if bool_decide (decoderError it ≠ None) then Some (false, it)
  else if bool_decide (length (header it) = 0) then
    Some (false, set_decoderError it
                   (ErrNew "Header not provided and failed to infer from stream."))
  else Next_loop fuel it.

Definition Err (it : csvRowIterator) : option error := decoderError it.

(** An iterator on which [Next] enters its loop with an empty pushback
    buffer, as [Decode] builds it and as it is between two calls of [Next]:
    no sticky error, a canonical header, which the reader enforces. *)
Record live (it : csvRowIterator) : Prop := {
  live_error : decoderError it = None;
  live_header : length (header it) ≠ 0;
  live_fields : FieldsPerRecord (csvReader_ it) = Z.of_nat (length (header it));
  live_pending : hasPending it = false;
}.

(** The reader once it has taken the first row of its feed, published with
    [meta] and followed by [rest]; and once it has run into the end of the
    stream. *)
Definition took_row (rd : csvReader) (meta : SrcMeta)
    (rest : list (rawRow * SrcMeta)) : csvReader :=
  {| r := {| feed := rest; now := meta; final := final (r rd) |};
     Comma := Comma rd; FieldsPerRecord := FieldsPerRecord rd |}.

Definition at_end (rd : csvReader) : csvReader :=
  {| r := {| feed := []; now := final (r rd); final := final (r rd) |};
     Comma := Comma rd; FieldsPerRecord := FieldsPerRecord rd |}.

(** The iterator [Decode] returns for the canonical header [csvHeader] over
    the stream [rc], delimiter [c]. *)
Definition new_iterator (c : Z) (csvHeader : list string) (rc : SrcAwareStreamer)
  : csvRowIterator :=
  {| csvReader_ := {| r := rc; Comma := c;
                      FieldsPerRecord := Z.of_nat (length csvHeader) |};
     header := csvHeader;
     atStart := false;
     hasPending := false;
     invertedIndex := buildIndex csvHeader;
     decoderError := None;
     current := replicate (length csvHeader) "";
     pending := [];
     currentSrcMeta := SrcMeta_zero;
     pendingSrcMeta := SrcMeta_zero;
     lastSourceMeta := Current rc |}.

(** [n] further calls of [Next] after a first one, each with [fuel]. *)
Fixpoint Next_times (n fuel : nat) (it : csvRowIterator)
    : option (bool * csvRowIterator) :=
  match n with
  | O => Next fuel it
  | S n' =>
      match Next fuel it with
      | Some (_, it') => Next_times n' fuel it'
      | None => None
      end
  end.

(** What a caller sees of a call of [Next]: the value returned, the fields
    and the metadata of [Record()], and [Err()]. *)
Definition outcome : Type := bool * list string * SrcMeta * option error.

Definition observe (res : bool * csvRowIterator) : outcome :=
  (res.1, current res.2, currentSrcMeta res.2, decoderError res.2).

(** The outcomes of [n] successive calls of [Next], up to the first one that
    does not return within [fuel] passes. *)
Fixpoint calls (n fuel : nat) (it : csvRowIterator) : list outcome :=
  match n with
  | O => []
  | S n' =>
      match Next fuel it with
      | Some res => observe res :: calls n' fuel res.2
      | None => []
      end
  end.

(** [Decode] followed by [n] calls of [Next]. *)
Definition decode_and_read (d : csvDecoder) (rc : SrcAwareStreamer) (n fuel : nat)
  : error + list outcome :=
  match Decode d rc with
  | inl err => inl err
  | inr it => inr (calls n fuel it)
  end.

(** [sliceExtractor], the value [Record()] returns. *)
Record sliceExtractor : Type := {
  se_current : list string;
  se_header : list string;
  invIndex : gmap string nat;
  srcMeta : SrcMeta;
}.

Definition Record_ (it : csvRowIterator) : sliceExtractor :=
  {| se_current := current it; se_header := header it;
     invIndex := invertedIndex it; srcMeta := currentSrcMeta it |}.

Definition ByIndex (s : sliceExtractor) (i : Z) : string * bool :=
  if bool_decide (i < 0)%Z || bool_decide (Z.of_nat (length (se_current s)) ≤ i)%Z
  then ("", false)
  else (default "" (se_current s !! Z.to_nat i), true).

(** [ByName]; [None] stands for the panic of an index out of range. *)
Definition ByName (s : sliceExtractor) (name : string) : option (string * bool) :=
  match invIndex s !! name with
  | None => Some ("", false)
  | Some idx =>
      match se_current s !! idx with
      | Some v => Some (v, true)
      | None => None
      end
  end.

Definition Len (s : sliceExtractor) : Z := Z.of_nat (length (se_current s)).

Definition Names (s : sliceExtractor) : list string := [] ++ se_header s.

Definition Meta (s : sliceExtractor) : SrcMeta := srcMeta s.

End transform.

(** ** Sample sessions, after csv_decoder_test.go *)

Module samples.

Import connector transform.

(** Sources after opener_multiplexer_test.go.  The reader of a [fakeOpener]
    hands out its data in one [Read] and [io.EOF] in the next. *)
Definition bytes (s : string) : list byte := String.list_byte_of_string s.

Definition fakeOpener (name data : string) : opener.Opener :=
  {| opener.Open := inr [(bytes data, None)]; opener.Name := name |}.

Definition ops_hello : list opener.Opener :=
  [fakeOpener "a" "hello"; fakeOpener "b" "WORLD"].

Definition injectedError : error := ErrNew "injected read error".

(** A reader whose second [Read] returns three bytes together with the
    injected error. *)
Definition op_partial : opener.Opener :=
  {| opener.Open := inr [(bytes "abc", None); (bytes "def", Some injectedError)];
     opener.Name := "a" |}.

Definition op_bad : opener.Opener :=
  {| opener.Open := inl (ErrNew "boom"); opener.Name := "bad" |}.

Definition src1 (off : Z) : SrcMeta := {| Name := "TestSource1"; ByteOffset := off |}.
Definition src2 (off : Z) : SrcMeta := {| Name := "TestSource2"; ByteOffset := off |}.

Definition inferring : csvDecoder :=
  NewCSVDecoder {| opt_Comma := 44; opt_Header := None |}.

(** "header skip on new source": both sources start with the header. *)
Definition rc_header_skip : SrcAwareStreamer :=
  {| feed := [(RawRecord ["col1"; "col2"], src1 16);
              (RawRecord ["a1"; "b1"], src1 16);
              (RawRecord ["col1"; "col2"], src2 16);
              (RawRecord ["a2"; "b2"], src2 16)];
     now := SrcMeta_zero; final := src2 16 |}.

(** "do no skip mismatching", once [Decode] has taken the header and [Next]
    the row [a1,b1]: the second source starts with [x,y]. *)
Definition it_mismatch : csvRowIterator :=
  new_iterator 44 ["col1"; "col2"]
    {| feed := [(RawRecord ["x"; "y"], src2 10); (RawRecord ["a2"; "b2"], src2 10)];
       now := src1 16; final := src2 10 |}.

(** The second source starts with the header, at the same point. *)
Definition it_header : csvRowIterator :=
  new_iterator 44 ["col1"; "col2"]
    {| feed := [(RawRecord ["col1"; "col2"], src2 16);
                (RawRecord ["a2"; "b2"], src2 16)];
       now := src1 16; final := src2 16 |}.

(** The second source holds the header twice, then [a2,b2]; [it_header_twice]
    is the iterator at the start of that source. *)
Definition it_header_twice : csvRowIterator :=
  new_iterator 44 ["col1"; "col2"]
    {| feed := [(RawRecord ["col1"; "col2"], src2 26);
                (RawRecord ["col1"; "col2"], src2 26);
                (RawRecord ["a2"; "b2"], src2 26)];
       now := src1 16; final := src2 26 |}.

Definition rc_header_twice : SrcAwareStreamer :=
  {| feed := [(RawRecord ["col1"; "col2"], src1 16);
              (RawRecord ["a1"; "b1"], src1 16);
              (RawRecord ["col1"; "col2"], src2 26);
              (RawRecord ["col1"; "col2"], src2 26);
              (RawRecord ["a2"; "b2"], src2 26)];
     now := SrcMeta_zero; final := src2 26 |}.

(** One source of empty name holding the row [1], read under the explicit
    header [a]. *)
Definition explicit_a : csvDecoder :=
  NewCSVDecoder {| opt_Comma := 44; opt_Header := Some ["a"] |}.

Definition rc_unnamed : SrcAwareStreamer :=
  {| feed := [(RawRecord ["1"], {| Name := ""; ByteOffset := 2 |})];
     now := {| Name := ""; ByteOffset := 0 |};
     final := {| Name := ""; ByteOffset := 2 |} |}.

(** No source at all: the stream of [NewMuxReader(ctx, nil)], whose
    [Current()] is the zero [SrcMeta] throughout. *)
Definition rc_no_sources : SrcAwareStreamer :=
  {| feed := []; now := SrcMeta_zero; final := SrcMeta_zero |}.

(** "malformed header" and "infer header error". *)
Definition rc_duplicate : SrcAwareStreamer :=
  {| feed := [(RawRecord ["col1"; "col1"], src1 16);
              (RawRecord ["a1"; "b1"], src1 16)];
     now := SrcMeta_zero; final := src1 16 |}.

Definition rc_empty : SrcAwareStreamer :=
  {| feed := []; now := SrcMeta_zero; final := src1 0 |}.

End samples.

(** ** Further views of the decoder *)

Module decoder_views.

Import connector transform.

(** An entry of the feed that [Next] may pass over without serving it: if it
    is a row that parses, it is the canonical header. *)
Definition passed_over (it : csvRowIterator) (x : rawRow * SrcMeta) : Prop :=
  ∀ fields, x.1 = RawRecord fields → fields = header it.

End decoder_views.

(** ** Further views of a producer trace *)

Module trace_views.

Import connector.

(** The bytes of source [k] written to the pipe. *)
Definition written_by (k : nat) (evs : list event) : list byte :=
  concat (omap (fun ev => match ev with
                          | EvWrite j bs => if decide (j = k) then Some bs else None
                          | _ => None
                          end) evs).

(** Following the readers through a trace: [Some k] while the reader of
    source [k] is open.  An open while a reader is open, and a close of a
    reader that is not the open one, are violations ([None]). *)
Fixpoint readers (held : option nat) (evs : list event) : option (option nat) :=
  match evs with
  | [] => Some held
  | EvOpened k :: evs' =>
      match held with
      | None => readers (Some k) evs'
      | Some _ => None
      end
  | EvOpenFailed _ _ :: evs' =>
      match held with
      | None => readers None evs'
      | Some _ => None
      end
  | EvSrcClose k :: evs' =>
      if decide (held = Some k) then readers None evs' else None
  | (EvWrite k _ | EvWriteFailed k _) :: evs' =>
      if decide (held = Some k) then readers held evs' else None
  | _ :: evs' => readers held evs'
  end.

End trace_views.

(** ** in-memory sources *)

Module in_memory_source.





End in_memory_source.

Module samples_more.

Import connector transform.

(** The second source starts with [x,y], then holds the header, then
    [a2,b2]. *)
Definition it_late_header : csvRowIterator :=
  new_iterator 44 ["col1"; "col2"]
    {| feed := [(RawRecord ["x"; "y"], samples.src2 10);
                (RawRecord ["col1"; "col2"], samples.src2 10);
                (RawRecord ["a2"; "b2"], samples.src2 10)];
       now := samples.src1 16; final := samples.src2 10 |}.



End samples_more.

(** ** decode_map_transform.go *)

Module decode_map_transform.

(** The methods of a [RecordIterator] with state [I] serving records [E].
    [ri_Next] is [None] when the call does not return. *)
Record RecordIterator (I E : Type) : Type := {
  ri_Next : I → option (bool * I);
  ri_Record : I → E;
  ri_Err : I → option error;
  ri_Close : I → option error * I;
}.
Arguments ri_Next {I E} _ _.
Arguments ri_Record {I E} _ _.
Arguments ri_Err {I E} _ _.
Arguments ri_Close {I E} _ _.

(** [type Mapper[T any] func(Extractor) (T, error)] *)
Definition Mapper (E T : Type) : Type := E → T * option error.

Record mappedIterator (I E T : Type) : Type := {
  inner : I;
  mapFn : Mapper E T;
  cur : T;
  err : option error;
  done : bool;
}.
Arguments inner {I E T} _.
Arguments mapFn {I E T} _.
Arguments cur {I E T} _.
Arguments err {I E T} _.
Arguments done {I E T} _.

(** [decodeMapTransform.Transform]; [decode] is [t.decoder.Decode], a nil
    [mapFn] is [None], and [zero] is the zero value of [T]. *)
Definition Transform {RC I E T : Type} (decode : RC → error + I) (rc : RC)
    (mapFn : option (Mapper E T)) (zero : T) : error + mappedIterator I E T :=
  match mapFn with
  | None => inl (ErrNew "transform: Mapper[T] must not be nil")
  | Some f =>
      match decode rc with
      | inl e => inl e
      | inr recIt =>
          inr {| inner := recIt; mapFn := f; cur := zero; err := None;
                 done := false |}
      end
  end.

(** [mappedIterator.Next] *)
Definition Next {I E T : Type} (R : RecordIterator I E) (m : mappedIterator I E T)
  : option (bool * mappedIterator I E T) :=
  if done m then Some (false, m)
  else
    match err m with
    | Some _ =>
        Some (false, {| inner := inner m; mapFn := mapFn m; cur := cur m;
                        err := err m; done := true |})
    | None =>
        match ri_Next R (inner m) with
        | None => None
        | Some (false, i) =>
            Some (false, {| inner := i; mapFn := mapFn m; cur := cur m;
                            err := err m; done := true |})
        | Some (true, i) =>
            match mapFn m (ri_Record R i) with
            | (_, Some e) =>
                Some (false, {| inner := i; mapFn := mapFn m; cur := cur m;
                                err := Some e; done := true |})
            | (val, None) =>
                Some (true, {| inner := i; mapFn := mapFn m; cur := val;
                               err := err m; done := done m |})
            end
        end
    end.

Definition Struct {I E T : Type} (m : mappedIterator I E T) : T := cur m.

Definition Err {I E T : Type} (R : RecordIterator I E) (m : mappedIterator I E T)
  : option error :=
  match err m with
  | Some e => Some e
  | None => ri_Err R (inner m)
  end.

Definition Close {I E T : Type} (R : RecordIterator I E) (m : mappedIterator I E T)
  : option error * mappedIterator I E T :=
  let '(e, i) := ri_Close R (inner m) in
  (e, {| inner := i; mapFn := mapFn m; cur := cur m; err := err m; done := true |}).

(** The records the inner iterator serves in at most [n] calls of its
    [Next], up to the first that does not return [true]. *)
Fixpoint served {I E : Type} (R : RecordIterator I E) (n : nat) (i : I) : list E :=
  match n with
  | O => []
  | S n' =>
      match ri_Next R i with
      | Some (true, i') => ri_Record R i' :: served R n' i'
      | _ => []
      end
  end.

(** The values [Struct] returns over at most [n] calls of [Next], up to the
    first that does not return [true]. *)
Fixpoint collect {I E T : Type} (R : RecordIterator I E) (n : nat)
    (m : mappedIterator I E T) : list T :=
  match n with
  | O => []
  | S n' =>
      match Next R m with
      | Some (true, m') => Struct m' :: collect R n' m'
      | _ => []
      end
  end.

(** Mapping the records in order, up to the first the mapper rejects. *)
Fixpoint map_until {E T : Type} (f : Mapper E T) (recs : list E) : list T :=
  match recs with
  | [] => []
  | x :: recs' =>
      match f x with
      | (v, None) => v :: map_until f recs'
      | (_, Some _) => []
      end
  end.

(** The CSV row iterator as a [RecordIterator]; its [Close], that of the
    stream, is taken as [close]. *)
Definition csvRecordIterator (fuel : nat)
    (close : transform.csvRowIterator → option error * transform.csvRowIterator)
  : RecordIterator transform.csvRowIterator transform.sliceExtractor :=
  {| ri_Next := transform.Next fuel;
     ri_Record := transform.Record_;
     ri_Err := transform.Err;
     ri_Close := close |}.

(** A mapper that takes the first field of a record and rejects a record
    whose first field is empty. *)
Definition first_field : Mapper transform.sliceExtractor string :=
  fun e =>
    match transform.ByIndex e 0 with
    | (v, true) =>
        if decide (v = "") then ("", Some (ErrNew "empty field")) else (v, None)
    | (_, false) => ("", Some (ErrNew "no field"))
    end.

(** A mapper that rejects every record. *)
Definition always_fails : Mapper transform.sliceExtractor string :=
  fun _ => ("", Some (ErrNew "boom")).

(** A mapped iterator over the CSV iterator [it]. *)
Definition mapped_over (it : transform.csvRowIterator)
    (f : Mapper transform.sliceExtractor string) (finished : bool)
  : mappedIterator transform.csvRowIterator transform.sliceExtractor string :=
  {| inner := it; mapFn := f; cur := ""; err := None; done := finished |}.

End decode_map_transform.

(** * Properties of the multiplexer *)

Section multiplexer.

Import connector.

Implicit Types (m : muxReader) (evs : list event) (ops : list opener.Opener)
  (w : patience) (meta : SrcMeta).

(** ** Replaying a trace *)

Lemma run_app evs1 evs2 m : run (evs1 ++ evs2) m = run evs2 (run evs1 m).
Proof. apply foldl_app. Qed.

Lemma written_chunks_app evs1 evs2 :
  written_chunks (evs1 ++ evs2) = written_chunks evs1 ++ written_chunks evs2.
Proof. apply omap_app. Qed.

Lemma written_app evs1 evs2 : written (evs1 ++ evs2) = written evs1 ++ written evs2.
Proof. unfold written. by rewrite written_chunks_app, concat_app. Qed.

Lemma boundaries_app evs1 evs2 :
  boundaries (evs1 ++ evs2) = boundaries evs1 ++ boundaries evs2.
Proof. apply omap_app. Qed.

Lemma opened_app evs1 evs2 : opened (evs1 ++ evs2) = opened evs1 ++ opened evs2.
Proof. apply omap_app. Qed.

Lemma terminal_app evs1 evs2 :
  terminal (evs1 ++ evs2) =
    match terminal evs1 with Some e => Some e | None => terminal evs2 end.
Proof.
  induction evs1 as [|ev evs1 IH]; [done|]. by destruct ev.
Qed.

Lemma run_chunks evs m :
  chunks (pr (run evs m)) = chunks (pr m) ++ written_chunks evs.
Proof.
  revert m. induction evs as [|ev evs IH]; intros m; simpl.
  - by rewrite app_nil_r.
  - unfold run in *. rewrite IH.
    destruct ev; simpl; try done. by rewrite <- app_assoc.
Qed.

Lemma run_werr evs m :
  werr (pr (run evs m)) =
    match werr (pr m) with Some e => Some e | None => terminal evs end.
Proof.
  revert m. induction evs as [|ev evs IH]; intros m; simpl.
  - by destruct (werr (pr m)).
  - unfold run in *. rewrite IH.
    destruct ev; simpl; try done; by destruct (werr (pr m)).
Qed.

Lemma run_current evs m :
  (∀ meta, EvStore meta ∉ evs) → current (run evs m) = current m.
Proof.
  revert m. induction evs as [|ev evs IH]; intros m Hno; [done|].
  unfold run in *. simpl. rewrite IH.
  - destruct ev; try done. exfalso. apply (Hno meta). left.
  - intros meta Hin. apply (Hno meta). by right.
Qed.

(** ** The boundary channel *)

Lemma overwriteLatest_buf_latest {T} (q : list T) v : overwriteLatest_buf q v = [v].
Proof. induction q; done. Qed.

Lemma drain_buf_empty {T} (q : list T) : drain_buf q = [].
Proof. induction q; done. Qed.

(** ** Reading the pipe to its end *)

Lemma readToEnd_closed n m e :
  (0 < n)%nat → werr (pr m) = Some e →
  ∀ fuel, (reads_needed m ≤ fuel)%nat →
    readToEnd fuel n m = Some (concat (chunks (pr m)), e).
Proof.
  intros Hn Hwerr fuel. revert m Hwerr.
  induction fuel as [|fuel IH]; intros m Hwerr Hfuel;
    unfold reads_needed in *; [lia|].
  destruct m as [[cs we] cur bd]. simpl in *. subst we.
  unfold Read, pipe_Read. simpl. destruct cs as [|c cs]; [done|]. simpl.
  assert (take n c ++ drop n c = c) as Hc by apply take_drop.
  change (concat (c :: cs)) with (c ++ concat cs) in Hfuel.
  rewrite length_app in Hfuel. simpl in Hfuel.
  destruct (drop n c) as [|b rest] eqn:Hdrop.
  - rewrite IH; simpl; [|done|lia].
    rewrite app_nil_r in Hc. by rewrite Hc.
  - rewrite IH; simpl; [|done|].
    + rewrite <- Hc at 2. by rewrite <- app_assoc.
    + assert (length (drop n c) < length c)%nat as Hlt.
      { rewrite length_drop. destruct c; [by rewrite drop_nil in Hdrop|].
        simpl. lia. }
      rewrite Hdrop in Hlt. simpl in Hlt. rewrite length_app. lia.
Qed.

(** ** The inner loop over one source *)

Lemma reads_clean_read_error rc : reads_clean rc = true ↔ read_error rc = EOF.
Proof.
  induction rc as [|[bs [e|]] rc IH]; simpl; [done| |done].
  apply bool_decide_eq_true.
Qed.

Lemma streamLoop_events k name rc meta w evs exit :
  streamLoop k name rc meta w = (evs, exit) → Forall (stream_event k) evs.
Proof.
  revert meta w evs exit.
  induction rc as [|[bs rerr] rc IH]; intros meta w evs exit; simpl.
  - intros [= <- <-]. constructor.
  - case_bool_decide as Hn.
    + destruct (pw_Write w) as [werr|w'].
      * intros [= <- <-]. by repeat constructor.
      * destruct rerr as [e|].
        -- destruct (decide (e = EOF)); intros [= <- <-]; by repeat constructor.
        -- destruct (streamLoop k name rc (advance meta (length bs)) w')
             as [evs' exit'] eqn:Hrec.
           intros [= <- <-]. apply IH in Hrec. by repeat constructor.
    + destruct rerr as [e|].
      * destruct (decide (e = EOF)); intros [= <- <-]; by repeat constructor.
      * destruct (streamLoop k name rc meta w) as [evs' exit'] eqn:Hrec.
        intros [= <- <-]. by apply IH in Hrec.
Qed.

Lemma stream_events_boundaries k evs :
  Forall (stream_event k) evs → boundaries evs = [] ∧ opened evs = [].
Proof.
  induction 1 as [|ev evs Hev _ [IHb IHo]]; [done|].
  destruct ev; simpl in *; done.
Qed.

(** With a consumer that never closes the pipe, the loop over a source is
    left by [break] when the reader ends in [io.EOF] and by [return]
    otherwise; it has written the reader's payload either way, and in the
    second case it has closed the pipe with the read error under the
    source's name. *)
Lemma streamLoop_None k name rc meta :
  ∃ evs,
    streamLoop k name rc meta None =
      (evs, if decide (read_error rc = EOF) then Break None else Return) ∧
    written evs = payload rc ∧
    terminal evs =
      if decide (read_error rc = EOF) then None
      else Some (Errorf ("read " +:+ name) (read_error rc)).
Proof.
  revert meta. induction rc as [|[bs rerr] rc IH]; intros meta; simpl.
  - by exists [].
  - case_bool_decide as Hn.
    + destruct rerr as [e|]; [destruct (decide (e = EOF)) as [->|Hne]|].
      * eexists. split; [done|]. split; [|done].
        unfold written. simpl. by rewrite app_nil_r.
      * eexists. split; [done|]. split; [|done].
        unfold written. simpl. by rewrite app_nil_r.
      * destruct (IH (advance meta (length bs))) as (evs' & -> & Hw & Ht).
        eexists. split; [done|]. split; [|done].
        unfold written in *. simpl. by rewrite Hw.
    + assert (bs = []) as -> by (destruct bs; [done | simpl in Hn; lia]).
      destruct rerr as [e|]; [destruct (decide (e = EOF)) as [->|Hne]|].
      * by exists [].
      * by eexists.
      * destruct (IH meta) as (evs' & -> & Hw & Ht). by exists evs'.
Qed.

(** A read that yields bytes together with an error other than [io.EOF]:
    the bytes are written to the pipe and the advanced offset is stored
    first; only then is the source closed and the pipe closed with the
    error. *)
Lemma streamLoop_partial k name bs e rc meta :
  bs ≠ [] → e ≠ EOF →
  streamLoop k name ((bs, Some e) :: rc) meta None =
    ([EvWrite k bs; EvStore (advance meta (length bs));
      EvSrcClose k; EvCloseWithError (Errorf ("read " +:+ name) e)],
     Return).
Proof.
  intros Hbs Hne. simpl.
  rewrite bool_decide_eq_true_2; [|destruct bs; [done | simpl; lia]].
  by rewrite decide_False.
Qed.

(** ** The outer loop over the sources *)

Lemma source_clean_open op :
  source_clean op = true →
  ∃ rc, opener.Open op = inr rc ∧ read_error rc = EOF ∧ source_payload op = payload rc.
Proof.
  unfold source_clean, source_payload. destruct (opener.Open op) as [|rc]; [done|].
  intros Hclean%reads_clean_read_error. by exists rc.
Qed.

(** Sources that open and read without error are streamed one after the
    other, and the loop goes on behind them. *)
Lemma muxLoop_clean_prefix k pre rest :
  Forall (fun op => source_clean op = true) pre →
  ∃ evs,
    muxLoop k (pre ++ rest) None = evs ++ muxLoop (k + length pre) rest None ∧
    written evs = flat_map source_payload pre ∧
    terminal evs = None ∧
    ∀ j bs, EvWrite j bs ∈ evs → (k ≤ j < k + length pre)%nat.
Proof.
  intros Hclean. revert k.
  induction Hclean as [|op pre Hop _ IH]; intros k.
  - exists []. simpl. rewrite Nat.add_0_r. do 3 (split; [done|]).
    by intros j bs ?%elem_of_nil.
  - destruct (source_clean_open op Hop) as (rc & Hopen & Herr & Hpay).
    destruct (streamLoop_None k (opener.Name op) rc (boundary_of op))
      as (evs0 & Hloop & Hw0 & Ht0).
    rewrite Herr in Hloop, Ht0. simpl in Hloop, Ht0.
    pose proof (streamLoop_events _ _ _ _ _ _ _ Hloop) as Hevs0.
    destruct (IH (S k)) as (evs1 & Hrec & Hw1 & Ht1 & Hidx1).
    exists (EvOpened k :: EvStore (boundary_of op) :: EvBoundary k (boundary_of op)
              :: evs0 ++ EvSrcClose k :: evs1).
    split; [|split; [|split]].
    + replace (k + length (op :: pre))%nat with (S k + length pre)%nat
        by (simpl; lia).
      simpl. rewrite Hopen. unfold boundary_of in Hloop. rewrite Hloop, Hrec.
      simpl. by rewrite <- app_assoc.
    + change (written (?a :: ?b :: ?c :: ?l)) with (written l).
      rewrite written_app. change (written (EvSrcClose k :: evs1)) with (written evs1).
      simpl. by rewrite Hw0, Hw1, Hpay.
    + simpl. rewrite terminal_app, Ht0. done.
    + intros j bs Hin. simpl.
      rewrite !elem_of_cons, elem_of_app, elem_of_cons in Hin.
      destruct Hin as [?|[?|[?|[Hin|[?|Hin]]]]]; try done.
      * rewrite Forall_forall in Hevs0. apply Hevs0 in Hin. simpl in Hin. lia.
      * apply Hidx1 in Hin. lia.
Qed.

(** The opens that succeed are those of a prefix of the list, and each is
    followed by the boundary event of its source. *)
Lemma muxLoop_boundaries k ops w :
  ∃ j, (j ≤ length ops)%nat ∧
       opened (muxLoop k ops w) = seq k j ∧
       boundaries (muxLoop k ops w) = map boundary_of (take j ops).
Proof.
  revert k w. induction ops as [|op ops IH]; intros k w; simpl.
  - by exists 0%nat.
  - destruct (opener.Open op) as [err|rc].
    + exists 0%nat. repeat split; [lia|done..].
    + destruct (streamLoop k (opener.Name op) rc _ w) as [evs exit] eqn:Hloop.
      apply streamLoop_events, stream_events_boundaries in Hloop as [Hb Ho].
      change (opened (EvOpened k :: ?a :: ?b :: ?l)) with (k :: opened l).
      change (boundaries (?a :: ?b :: EvBoundary k ?m :: ?l)) with (m :: boundaries l).
      rewrite opened_app, boundaries_app, Hb, Ho. simpl.
      destruct exit as [w'|].
      * destruct (IH (S k) w') as (j & Hj & Hopened & Hbounds).
        exists (S j). split; [lia|].
        change (opened (EvSrcClose k :: ?l)) with (opened l).
        change (boundaries (EvSrcClose k :: ?l)) with (boundaries l).
        by rewrite Hopened, Hbounds.
      * exists 1%nat. split; [lia|]. split; [done|].
        simpl. by destruct ops.
Qed.

Lemma app_eq_middle {A} (l1 l2 pre post : list A) x :
  l1 ++ l2 = pre ++ x :: post →
  (∃ l, l1 = pre ++ x :: l) ∨ (∃ l, pre = l1 ++ l ∧ l2 = l ++ x :: post).
Proof.
  revert pre. induction l1 as [|y l1 IH]; intros pre Heq; simpl in *.
  - right. by exists pre.
  - destruct pre as [|z pre]; simpl in *.
    + injection Heq as -> _. left. by exists l1.
    + injection Heq as -> Heq. destruct (IH _ Heq) as [[l ->]|(l & -> & ->)].
      * left. by exists l.
      * right. by exists l.
Qed.

(** Whatever the consumer does, a chunk of source [k] is written only after
    the boundary event of source [k] has been published. *)
Lemma muxLoop_boundary_first k0 ops w pre k bs post :
  muxLoop k0 ops w = pre ++ EvWrite k bs :: post →
  (k0 ≤ k)%nat ∧
  ∃ op, ops !! (k - k0)%nat = Some op ∧ EvBoundary k (boundary_of op) ∈ pre.
Proof.
  revert k0 w pre. induction ops as [|op ops IH]; intros k0 w pre; simpl.
  - by destruct pre.
  - destruct (opener.Open op) as [err|rc].
    + destruct pre as [|? [|? [|? ?]]]; done.
    + destruct (streamLoop k0 (opener.Name op) rc _ w) as [evs exit] eqn:Hloop.
      apply streamLoop_events in Hloop. rewrite Forall_forall in Hloop.
      fold (boundary_of op).
      change (EvOpened k0 :: ?a :: ?b :: evs ++ ?t)
        with (([EvOpened k0; a; b] ++ evs) ++ t).
      intros [[l Heq]|(l & -> & Heq)]%app_eq_middle.
      * apply app_eq_middle in Heq as [[l' Heq]|(l' & -> & Heq)].
        { destruct pre as [|? [|? [|? [|? ?]]]]; done. }
        assert (k = k0) as ->.
        { apply (Hloop (EvWrite k bs)). rewrite Heq.
          apply elem_of_app. right. left. }
        split; [lia|]. exists op. rewrite Nat.sub_diag. split; [done|].
        apply elem_of_app. left. by do 2 right; left.
      * destruct exit as [w'|]; [|by destruct l].
        destruct l as [|ev l]; [done|]. injection Heq as _ Heq.
        apply IH in Heq as (Hle & op' & Hlook & Hin).
        split; [lia|]. exists op'. split.
        -- replace (k - k0)%nat with (S (k - S k0)) by lia. done.
        -- apply elem_of_app. right. by right.
Qed.

(** An open can only fail after every earlier source has opened and read
    without error. *)
Lemma muxLoop_open_failed k0 ops k e :
  EvOpenFailed k e ∈ muxLoop k0 ops None →
  (k0 ≤ k)%nat ∧
  ∃ op, ops !! (k - k0)%nat = Some op ∧ opener.Open op = inl e ∧
        Forall (fun op => source_clean op = true) (take (k - k0) ops).
Proof.
  revert k0. induction ops as [|op ops IH]; intros k0; simpl.
  - by intros ?%elem_of_nil.
  - destruct (opener.Open op) as [err|rc] eqn:Hopen.
    + rewrite !elem_of_cons. intros [[= -> ->]|[?|?%elem_of_nil]]; try done.
      split; [lia|]. exists op. rewrite Nat.sub_diag. by repeat split.
    + destruct (streamLoop_None k0 (opener.Name op) rc (boundary_of op))
        as (evs & Hloop & _ & _).
      unfold boundary_of in Hloop. rewrite Hloop.
      pose proof (streamLoop_events _ _ _ _ _ _ _ Hloop) as Hevs.
      rewrite Forall_forall in Hevs.
      rewrite !elem_of_cons, elem_of_app.
      intros [?|[?|[?|[Hin|Hin]]]]; try done.
      { by apply Hevs in Hin. }
      destruct (decide (read_error rc = EOF)) as [Herr|]; [|by apply elem_of_nil in Hin].
      apply elem_of_cons in Hin as [?|Hin]; [done|].
      apply IH in Hin as (Hle & op' & Hlook & Hfail & Hclean).
      split; [lia|]. exists op'.
      replace (k - k0)%nat with (S (k - S k0)) by lia.
      repeat split; [done..|]. simpl. constructor; [|done].
      unfold source_clean. rewrite Hopen. by apply reads_clean_read_error.
Qed.

(** ** The finished multiplexer *)

Lemma NewMuxReader_pipe ops w :
  pr (NewMuxReader ops w) =
    {| chunks := written_chunks (muxLoop 0 ops w);
       werr := Some (default EOF (terminal (muxLoop 0 ops w))) |}.
Proof.
  pose proof (run_chunks (producer ops w) muxReader_new) as Hc.
  pose proof (run_werr (producer ops w) muxReader_new) as He.
  fold (NewMuxReader ops w) in Hc, He.
  destruct (pr (NewMuxReader ops w)) as [cs we]. simpl in *. subst.
  unfold producer. rewrite written_chunks_app, terminal_app. simpl.
  rewrite app_nil_r. by destruct (terminal (muxLoop 0 ops w)).
Qed.

Lemma NewMuxReader_boundary ops w :
  boundary (NewMuxReader ops w) = {| buf := []; closed := true |}.
Proof.
  unfold NewMuxReader, producer. rewrite run_app. simpl.
  unfold drainAndCloseChannel. by rewrite drain_buf_empty.
Qed.

(** What [io.ReadAll] obtains from a finished multiplexer whose consumer
    never closed it. *)
Lemma NewMuxReader_readToEnd ops n :
  (0 < n)%nat →
  ∀ fuel, (reads_needed (NewMuxReader ops None) ≤ fuel)%nat →
    readToEnd fuel n (NewMuxReader ops None) =
      Some (written (muxLoop 0 ops None),
            default EOF (terminal (muxLoop 0 ops None))).
Proof.
  intros Hn fuel Hfuel.
  rewrite (readToEnd_closed n _ (default EOF (terminal (muxLoop 0 ops None))));
    try done; by rewrite NewMuxReader_pipe.
Qed.

(** C5: when every source opens and reads without error, reading the
    multiplexer to its end yields the payloads of the sources, concatenated
    in list order, and then [io.EOF].  Over an empty list of sources, [Read]
    returns [(0, io.EOF)] and [AwaitBoundary] returns [io.EOF], neither with
    any byte or boundary. *)
Theorem clean_run_delivers_concatenation ops n :
  (0 < n)%nat →
  Forall (fun op => source_clean op = true) ops →
  (∀ fuel, (reads_needed (NewMuxReader ops None) ≤ fuel)%nat →
     readToEnd fuel n (NewMuxReader ops None) =
       Some (flat_map source_payload ops, EOF)) ∧
  (ops = [] →
   ∀ pick,
     Read n (NewMuxReader ops None) = Some ([], Some EOF, NewMuxReader ops None) ∧
     AwaitBoundary None pick (NewMuxReader ops None) =
       Some (SrcMeta_zero, Some EOF, NewMuxReader ops None)).
Proof.
  intros Hn Hclean. split.
  - intros fuel Hfuel. rewrite NewMuxReader_readToEnd by done.
    destruct (muxLoop_clean_prefix 0 ops [] Hclean) as (evs & Heq & Hw & Ht & _).
    rewrite app_nil_r in Heq. simpl in Heq. rewrite app_nil_r in Heq.
    by rewrite Heq, Hw, Ht.
  - by intros -> pick.
Qed.

Lemma clean_run_delivers_concatenation_witness :
  readToEnd 13 4 (NewMuxReader samples.ops_hello None) =
    Some (samples.bytes "helloWORLD", EOF) ∧
  Read 4 (NewMuxReader [] None) = Some ([], Some EOF, NewMuxReader [] None) ∧
  AwaitBoundary None true (NewMuxReader [] None) =
    Some (SrcMeta_zero, Some EOF, NewMuxReader [] None).
Proof.
  split.
  - apply (clean_run_delivers_concatenation samples.ops_hello 4);
      [lia | repeat constructor | vm_compute; lia].
  - apply (clean_run_delivers_concatenation [] 4); [lia | constructor | reflexivity].
Defined.

(** ** Offsets *)

Lemma int64_add a b : int64 (int64 a + b) = int64 (a + b).
Proof.
  unfold int64. f_equal.
  replace ((a + 2 ^ 63) mod 2 ^ 64 - 2 ^ 63 + b + 2 ^ 63)%Z
    with ((a + 2 ^ 63) mod 2 ^ 64 + b)%Z by lia.
  rewrite Z.add_mod_idemp_l by lia. f_equal. lia.
Qed.

Lemma int64_small z : (0 ≤ z < 2 ^ 63)%Z → int64 z = z.
Proof. intros Hz. unfold int64. rewrite Z.mod_small; lia. Qed.

(** Reads that return bytes and no error are forwarded one by one, and the
    offset stored last has advanced by their total length. *)
Lemma streamLoop_ok_prefix k name cs rc src z :
  let meta := {| Name := src; ByteOffset := int64 z |} in
  let meta' :=
    {| Name := src; ByteOffset := int64 (z + Z.of_nat (length (concat cs))) |} in
  ∃ evs,
    streamLoop k name (map (fun c => (c, None)) cs ++ rc) meta None =
      (evs ++ (streamLoop k name rc meta' None).1,
       (streamLoop k name rc meta' None).2) ∧
    written evs = concat cs ∧ terminal evs = None ∧
    ∀ m, current m = Some meta → current (run evs m) = Some meta'.
Proof.
  revert z. induction cs as [|c cs IH]; intros z; simpl.
  - rewrite Z.add_0_r. exists [].
    by destruct (streamLoop k name rc _ None).
  - case_bool_decide as Hn.
    + destruct (IH (z + Z.of_nat (length c))%Z) as (evs & Hloop & Hw & Ht & Hcur).
      assert (advance {| Name := src; ByteOffset := int64 z |} (length c) =
                {| Name := src; ByteOffset := int64 (z + Z.of_nat (length c)) |})
        as Hadv by (unfold advance; simpl; by rewrite int64_add).
      rewrite Hadv, Hloop.
      replace (z + Z.of_nat (length c) + Z.of_nat (length (concat cs)))%Z
        with (z + Z.of_nat (length (c ++ concat cs)))%Z
        in * by (rewrite length_app; lia).
      eexists ([EvWrite k c; EvStore _] ++ evs).
      split; [by rewrite <- app_assoc|].
      rewrite written_app, terminal_app, Hw, Ht. unfold written. simpl.
      rewrite app_nil_r. split; [done|]. split; [done|].
      intros m _.
      exact (Hcur (apply_event (apply_event m (EvWrite k c)) (EvStore _)) eq_refl).
    + assert (c = []) as -> by (destruct c; [done | simpl in Hn; lia]).
      destruct (IH z) as (evs & Hloop & Hw & Ht & Hcur).
      exists evs. by rewrite Hloop.
Qed.

(** C3: a read of a source that returns [n > 0] bytes together with an
    error other than [io.EOF].  The producer writes those bytes to the pipe
    and stores the offset advanced by [n], which then counts every byte the
    source has returned, and only then closes the source and closes the pipe
    with the error wrapped as "read <name>"; nothing has closed the pipe
    before.  [Current()] reports the offset before the read up to that point
    and the advanced one from the store on.  A consumer that reads to the
    end obtains the payloads of the earlier sources, the bytes this source
    returned before, those [n] bytes, and then that error. *)
Theorem partial_bytes_precede_read_error pre op post cs bs e rest n :
  (0 < n)%nat →
  Forall (fun op => source_clean op = true) pre →
  opener.Open op = inr (map (fun c => (c, None)) cs ++ (bs, Some e) :: rest) →
  bs ≠ [] → e ≠ EOF →
  let ops := pre ++ op :: post in
  let k := length pre in
  let err := Errorf ("read " +:+ opener.Name op) e in
  let sofar := Z.of_nat (length (concat cs)) in
  let before := {| Name := opener.Name op; ByteOffset := int64 sofar |} in
  let after :=
    {| Name := opener.Name op;
       ByteOffset := int64 (sofar + Z.of_nat (length bs)) |} in
  (∃ evs,
     producer ops None =
       evs ++ [EvWrite k bs; EvStore after;
               EvSrcClose k; EvCloseWithError err;
               EvPipeClose; EvDrainAndClose] ∧
     terminal evs = None ∧
     written evs = flat_map source_payload pre ++ concat cs ∧
     Current (run evs muxReader_new) = before ∧
     Current (run (evs ++ [EvWrite k bs; EvStore after]) muxReader_new) = after) ∧
  Current (NewMuxReader ops None) = after ∧
  ((sofar + Z.of_nat (length bs) < 2 ^ 63)%Z →
   ByteOffset before = sofar ∧
   ByteOffset after = (sofar + Z.of_nat (length bs))%Z ∧
   (ByteOffset before < ByteOffset after)%Z) ∧
  (∀ fuel, (reads_needed (NewMuxReader ops None) ≤ fuel)%nat →
     readToEnd fuel n (NewMuxReader ops None) =
       Some (flat_map source_payload pre ++ concat cs ++ bs, err)).
Proof.
  intros Hn Hclean Hopen Hbs He ops k err sofar before after.
  destruct (muxLoop_clean_prefix 0 pre (op :: post) Hclean)
    as (evs0 & Heq & Hw0 & Ht0 & _).
  assert (int64 0 = 0%Z) as Hzero by done.
  destruct (streamLoop_ok_prefix k (opener.Name op) cs ((bs, Some e) :: rest)
              (opener.Name op) 0) as (evs1 & Hloop & Hw1 & Ht1 & Hcur).
  rewrite Hzero, Z.add_0_l in Hloop, Hcur. fold sofar before in Hloop, Hcur.
  rewrite streamLoop_partial in Hloop by done. simpl in Hloop.
  assert (advance before (length bs) = after) as Hadv.
  { unfold advance, before, after. simpl. by rewrite int64_add. }
  rewrite Hadv in Hloop.
  set (head := evs0 ++ EvOpened k :: EvStore (boundary_of op)
                 :: EvBoundary k (boundary_of op) :: evs1).
  assert (muxLoop 0 ops None =
            head ++ [EvWrite k bs; EvStore after;
                     EvSrcClose k; EvCloseWithError err]) as Hmux.
  { unfold ops, head. rewrite Heq. simpl. rewrite Hopen.
    fold k. rewrite Hloop. simpl.
    rewrite app_nil_r, <- !app_assoc. done. }
  assert (Current (run head muxReader_new) = before) as Hbefore.
  { unfold head, Current.
    change (evs0 ++ ?a :: ?b :: ?c :: evs1) with (evs0 ++ [a; b; c] ++ evs1).
    rewrite !run_app. by rewrite Hcur. }
  assert (written head = flat_map source_payload pre ++ concat cs) as Hwh.
  { unfold head. rewrite written_app, Hw0.
    change (written (?a :: ?b :: ?c :: evs1)) with (written evs1).
    by rewrite Hw1. }
  assert (terminal head = None) as Hth.
  { unfold head. rewrite terminal_app, Ht0. simpl. done. }
  split; [|split; [|split]].
  - exists head. split; [|split; [|split; [|split]]]; try done.
    + unfold producer. by rewrite Hmux, <- app_assoc.
    + by rewrite run_app.
  - unfold NewMuxReader, producer. rewrite Hmux, !run_app. done.
  - intros Hsmall. unfold before, after. simpl.
    assert (0 ≤ sofar)%Z by (unfold sofar; lia).
    assert (0 < length bs)%nat by (destruct bs; [done | simpl; lia]).
    rewrite !int64_small by lia. lia.
  - intros fuel Hfuel. rewrite NewMuxReader_readToEnd by done.
    rewrite Hmux, written_app, terminal_app, Hwh, Hth. unfold written. simpl.
    by rewrite app_nil_r, <- app_assoc.
Qed.

Lemma partial_bytes_precede_read_error_witness :
  Current (NewMuxReader [samples.op_partial] None) =
    {| Name := "a"; ByteOffset := 6 |} ∧
  readToEnd 9 4 (NewMuxReader [samples.op_partial] None) =
    Some (samples.bytes "abcdef", Errorf "read a" samples.injectedError).
Proof.
  destruct (partial_bytes_precede_read_error [] samples.op_partial []
              [samples.bytes "abc"] (samples.bytes "def") samples.injectedError
              [] 4)
    as (_ & Hcurrent & _ & Hread);
    [lia | constructor | reflexivity | discriminate | discriminate |].
  split; [exact Hcurrent|]. apply Hread. vm_compute. lia.
Defined.

(** ** What the boundary channel holds *)

Lemma run_boundary evs m :
  EvDrainAndClose ∉ evs →
  closed (boundary (run evs m)) = closed (boundary m) ∧
  buf (boundary (run evs m)) =
    match last (boundaries evs) with
    | Some meta => [meta]
    | None => buf (boundary m)
    end.
Proof.
  induction evs as [|ev evs IH] using rev_ind; intros Hno; [done|].
  destruct IH as [IHc IHb].
  { intros Hin. apply Hno, elem_of_app. by left. }
  rewrite run_app, boundaries_app. simpl.
  destruct ev; simpl; rewrite ?app_nil_r; try done.
  - rewrite last_snoc. split; [done|]. apply overwriteLatest_buf_latest.
  - exfalso. apply Hno, elem_of_app. right. left.
Qed.

Lemma muxLoop_no_drain k ops w : EvDrainAndClose ∉ muxLoop k ops w.
Proof.
  revert k w. induction ops as [|op ops IH]; intros k w; simpl.
  - by intros ?%elem_of_nil.
  - destruct (opener.Open op) as [err|rc].
    + intros [?|[?|?%elem_of_nil]%elem_of_cons]%elem_of_cons; done.
    + destruct (streamLoop k (opener.Name op) rc _ w) as [evs exit] eqn:Hloop.
      apply streamLoop_events in Hloop. rewrite Forall_forall in Hloop.
      rewrite !elem_of_cons, elem_of_app.
      intros [?|[?|[?|[Hin|Hin]]]]; try done.
      * by apply Hloop in Hin.
      * destruct exit as [w'|]; [|by apply elem_of_nil in Hin].
        apply elem_of_cons in Hin as [?|Hin]; [done|]. by apply IH in Hin.
Qed.

(** When a chunk of source [k] is written, the boundary published last is
    that of source [k]. *)
Lemma muxLoop_boundary_last k0 ops w pre k bs post :
  muxLoop k0 ops w = pre ++ EvWrite k bs :: post →
  ∃ op, ops !! (k - k0)%nat = Some op ∧
        last (boundaries pre) = Some (boundary_of op).
Proof.
  revert k0 w pre. induction ops as [|op ops IH]; intros k0 w pre; simpl.
  - by destruct pre.
  - destruct (opener.Open op) as [err|rc].
    + destruct pre as [|? [|? [|? ?]]]; done.
    + destruct (streamLoop k0 (opener.Name op) rc _ w) as [evs exit] eqn:Hloop.
      apply streamLoop_events in Hloop.
      pose proof (stream_events_boundaries _ _ Hloop) as [Hnob _].
      rewrite Forall_forall in Hloop.
      fold (boundary_of op).
      change (EvOpened k0 :: ?a :: ?b :: evs ++ ?t)
        with (([EvOpened k0; a; b] ++ evs) ++ t).
      intros [[l Heq]|(l & -> & Heq)]%app_eq_middle.
      * apply app_eq_middle in Heq as [[l' Heq]|(l' & -> & Heq)].
        { destruct pre as [|? [|? [|? [|? ?]]]]; done. }
        assert (k = k0) as ->.
        { apply (Hloop (EvWrite k bs)). rewrite Heq.
          apply elem_of_app. right. left. }
        exists op. rewrite Nat.sub_diag. split; [done|].
        rewrite Heq, boundaries_app in Hnob.
        apply app_eq_nil in Hnob as [Hnob _].
        rewrite boundaries_app, Hnob. done.
      * destruct exit as [w'|]; [|by destruct l].
        destruct l as [|ev l]; [done|]. injection Heq as <- Heq.
        pose proof Heq as Hle. apply muxLoop_boundary_first in Hle as [Hle _].
        apply IH in Heq as (op' & Hlook & Hlast).
        exists op'. split.
        -- replace (k - k0)%nat with (S (k - S k0)) by lia. done.
        -- rewrite !boundaries_app, Hnob. simpl.
           change (boundaries (EvSrcClose k0 :: l)) with (boundaries l).
           destruct (boundaries l); [done|]. done.
Qed.

(** ** The consumer that waits for every boundary *)

(** With nothing left in the channel, that consumer receives what each
    effect of the producer hands over, as it happens. *)
Lemma deliveries_delivered evs m :
  buf (boundary m) = [] → deliveries evs m = flat_map delivered evs.
Proof.
  revert m. induction evs as [|ev evs IH]; intros m Hbuf; [done|].
  destruct m as [p cur [q c]]. simpl in Hbuf. subst q.
  destruct ev; simpl; unfold AwaitBoundary, recv_ready; simpl;
    destruct c; simpl; by rewrite IH.
Qed.

Lemma received_delivered evs : received (flat_map delivered evs) = boundaries evs.
Proof.
  induction evs as [|ev evs IH]; [done|].
  unfold received, boundaries in *. simpl. rewrite omap_app, IH.
  by destruct ev.
Qed.

Lemma delivered_boundary_in evs k meta :
  EvBoundary k meta ∈ evs → GotBoundary meta ∈ flat_map delivered evs.
Proof.
  intros Hin. induction evs as [|ev evs IH]; [by apply elem_of_nil in Hin|].
  apply elem_of_cons in Hin as [<-|Hin]; simpl.
  - left.
  - apply elem_of_app. right. by apply IH.
Qed.

Lemma delivered_bytes_split evs pre k bs post :
  flat_map delivered evs = pre ++ GotBytes k bs :: post →
  ∃ evs1 evs2, evs = evs1 ++ EvWrite k bs :: evs2 ∧ pre = flat_map delivered evs1.
Proof.
  revert pre. induction evs as [|ev evs IH]; intros pre Heq; simpl in Heq.
  - by destruct pre.
  - destruct ev; simpl in Heq;
      try (destruct (IH _ Heq) as (evs1 & evs2 & -> & ->);
           by eexists (_ :: evs1), evs2).
    + destruct pre as [|d pre]; simpl in Heq; [done|].
      injection Heq as <- Heq.
      destruct (IH _ Heq) as (evs1 & evs2 & -> & ->).
      by eexists (_ :: evs1), evs2.
    + destruct pre as [|d pre]; simpl in Heq.
      * injection Heq as -> -> _. by exists [], evs.
      * injection Heq as <- Heq.
        destruct (IH _ Heq) as (evs1 & evs2 & -> & ->).
        by eexists (_ :: evs1), evs2.
Qed.

(** C6: in a run in which every source of the list is opened successfully,
    the boundary events published are exactly those of the sources, one
    each, in list order and each with offset 0, and a consumer that waits in
    [AwaitBoundary] receives exactly these, in that order.  In any run a
    chunk of source [k] is written to the pipe only after the boundary event
    of source [k] has been published: a consumer that has not called
    [AwaitBoundary] until that moment finds the boundary of source [k] in
    the channel, and the consumer that waits has received it before the
    chunk. *)
Theorem boundary_events_in_order ops w :
  (∀ k, (k < length ops)%nat → EvOpened k ∈ producer ops w) →
  boundaries (producer ops w) =
    map (fun op => {| Name := opener.Name op; ByteOffset := 0 |}) ops ∧
  received (deliveries (producer ops w) muxReader_new) =
    map (fun op => {| Name := opener.Name op; ByteOffset := 0 |}) ops ∧
  (∀ pre k bs post,
     producer ops w = pre ++ EvWrite k bs :: post →
     ∃ op, ops !! k = Some op ∧
           EvBoundary k {| Name := opener.Name op; ByteOffset := 0 |} ∈ pre ∧
           ∀ pick, ∃ m',
             AwaitBoundary None pick (run pre muxReader_new) =
               Some ({| Name := opener.Name op; ByteOffset := 0 |}, None, m')) ∧
  (∀ pre k bs post,
     deliveries (producer ops w) muxReader_new = pre ++ GotBytes k bs :: post →
     ∃ op, ops !! k = Some op ∧
           GotBoundary {| Name := opener.Name op; ByteOffset := 0 |} ∈ pre).
Proof.
  intros Hopened.
  assert (boundaries (producer ops w) = map boundary_of ops) as Hbounds.
  { destruct (muxLoop_boundaries 0 ops w) as (j & Hj & Ho & Hb).
    unfold producer. rewrite boundaries_app, Hb. simpl. rewrite app_nil_r.
    assert (j = length ops) as ->; [|by rewrite take_ge].
    destruct (decide (length ops = 0)%nat) as [Hz|Hnz]; [lia|].
    specialize (Hopened (length ops - 1)%nat ltac:(lia)).
    unfold producer in Hopened.
    apply elem_of_app in Hopened as [Hin|Hin].
    + assert ((length ops - 1)%nat ∈ opened (muxLoop 0 ops w)) as Hmem.
      { apply list_elem_of_omap. by eexists. }
      rewrite Ho in Hmem. apply elem_of_seq in Hmem. lia.
    + apply elem_of_cons in Hin as [?|Hin]; [done|].
      apply elem_of_cons in Hin as [?|Hin]; [done|]. by apply elem_of_nil in Hin. }
  assert (∀ pre k bs post,
            producer ops w = pre ++ EvWrite k bs :: post →
            ∃ l, muxLoop 0 ops w = pre ++ EvWrite k bs :: l) as Hsplit.
  { intros pre k bs post Heq. unfold producer in Heq.
    apply app_eq_middle in Heq as [[l Heq]|(l & -> & Heq)]; [by exists l|].
    destruct l as [|? [|? [|? ?]]]; done. }
  split; [done|]. split; [|split].
  - by rewrite deliveries_delivered, received_delivered.
  - intros pre k bs post [l Heq]%Hsplit.
    destruct (muxLoop_boundary_first _ _ _ _ _ _ _ Heq) as (_ & op & Hlook & Hin).
    destruct (muxLoop_boundary_last _ _ _ _ _ _ _ Heq) as (op' & Hlook' & Hlast).
    rewrite Nat.sub_0_r in Hlook, Hlook'.
    assert (op' = op) as -> by congruence.
    exists op. split; [done|]. split; [done|]. intros pick.
    destruct (run_boundary pre muxReader_new) as [Hclosed Hbuf].
    { intros Hdrain. apply (muxLoop_no_drain 0 ops w). rewrite Heq.
      apply elem_of_app. by left. }
    rewrite Hlast in Hbuf.
    unfold AwaitBoundary, recv_ready. rewrite Hbuf. simpl. by eexists.
  - intros pre k bs post Heq.
    rewrite deliveries_delivered in Heq by done.
    apply delivered_bytes_split in Heq as (evs1 & evs2 & Heq & ->).
    apply Hsplit in Heq as [l Heq].
    apply muxLoop_boundary_first in Heq as (_ & op & Hlook & Hin).
    rewrite Nat.sub_0_r in Hlook. exists op. split; [done|].
    by apply (delivered_boundary_in _ k).
Qed.

Lemma boundary_events_in_order_witness :
  boundaries (producer samples.ops_hello None) =
    [{| Name := "a"; ByteOffset := 0 |}; {| Name := "b"; ByteOffset := 0 |}] ∧
  received (deliveries (producer samples.ops_hello None) muxReader_new) =
    [{| Name := "a"; ByteOffset := 0 |}; {| Name := "b"; ByteOffset := 0 |}].
Proof.
  destruct (boundary_events_in_order samples.ops_hello None)
    as (Hpublished & Hreceived & _).
  - intros k Hk. simpl in Hk.
    destruct k as [|[|k]]; [| |lia].
    + vm_compute. left.
    + vm_compute. do 6 right. left.
  - split; [exact Hpublished | exact Hreceived].
Defined.

(** C8: when the open of source [k] fails in a run, the pipe is closed with
    that error wrapped as "open <name of source k>", which is what [Read]
    returns once the earlier sources' bytes have been read; every chunk
    written comes from a source before [k], so no byte of source [k] or of
    a later source is delivered. *)
Theorem open_failure_aborts_stream ops k e n :
  (0 < n)%nat →
  EvOpenFailed k e ∈ producer ops None →
  ∃ op, ops !! k = Some op ∧ opener.Open op = inl e ∧
    terminal (producer ops None) = Some (Errorf ("open " +:+ opener.Name op) e) ∧
    (∀ j bs, EvWrite j bs ∈ producer ops None → (j < k)%nat) ∧
    written (producer ops None) = flat_map source_payload (take k ops) ∧
    ∀ fuel, (reads_needed (NewMuxReader ops None) ≤ fuel)%nat →
      readToEnd fuel n (NewMuxReader ops None) =
        Some (flat_map source_payload (take k ops),
              Errorf ("open " +:+ opener.Name op) e).
Proof.
  intros Hn Hin. unfold producer in Hin.
  apply elem_of_app in Hin as [Hin|Hin]; cycle 1.
  { apply elem_of_cons in Hin as [?|Hin]; [done|].
    apply elem_of_cons in Hin as [?|Hin]; [done|]. by apply elem_of_nil in Hin. }
  apply muxLoop_open_failed in Hin as (_ & op & Hlook & Hopen & Hclean).
  rewrite Nat.sub_0_r in Hlook, Hclean.
  pose proof (take_drop_middle ops k op Hlook) as Hops.
  destruct (muxLoop_clean_prefix 0 (take k ops) (op :: drop (S k) ops) Hclean)
    as (evs & Heq & Hw & Ht & Hidx).
  rewrite Hops in Heq. simpl in Heq. rewrite Hopen in Heq.
  assert (length (take k ops) = k) as Hlen.
  { apply lookup_lt_Some in Hlook. rewrite length_take. lia. }
  rewrite Hlen in Heq, Hidx.
  assert (written (muxLoop 0 ops None) = flat_map source_payload (take k ops)) as Hwr.
  { rewrite Heq, written_app, Hw. unfold written. simpl. by rewrite app_nil_r. }
  assert (terminal (muxLoop 0 ops None) =
            Some (Errorf ("open " +:+ opener.Name op) e)) as Hterm.
  { by rewrite Heq, terminal_app, Ht. }
  exists op. split; [done|]. split; [done|]. split; [|split; [|split]].
  - unfold producer. by rewrite terminal_app, Hterm.
  - intros j bs Hj. unfold producer in Hj. rewrite Heq in Hj.
    rewrite !elem_of_app, !elem_of_cons in Hj.
    destruct Hj as [[Hj|[?|[?|?%elem_of_nil]]]|[?|[?|?%elem_of_nil]]]; try done.
    apply Hidx in Hj. lia.
  - unfold producer. rewrite written_app, Hwr. unfold written. simpl.
    by rewrite app_nil_r.
  - intros fuel Hfuel. rewrite NewMuxReader_readToEnd by done.
    by rewrite Hwr, Hterm.
Qed.

Lemma open_failure_aborts_stream_witness :
  ∃ op, [samples.fakeOpener "a" "hello"; samples.op_bad;
         samples.fakeOpener "b" "WORLD"] !! 1%nat = Some op ∧
    readToEnd 7 4
      (NewMuxReader [samples.fakeOpener "a" "hello"; samples.op_bad;
                     samples.fakeOpener "b" "WORLD"] None) =
      Some (samples.bytes "hello", Errorf "open bad" (ErrNew "boom")).
Proof.
  destruct (open_failure_aborts_stream
              [samples.fakeOpener "a" "hello"; samples.op_bad;
               samples.fakeOpener "b" "WORLD"] 1 (ErrNew "boom") 4)
    as (op & Hlook & Hopen & _ & _ & _ & Hread).
  - lia.
  - vm_compute. do 6 right. left.
  - exists op. split; [exact Hlook|].
    injection Hlook as <-. apply Hread. vm_compute. lia.
Defined.

(** ** [Current] *)

Lemma Read_current n m bs err m' :
  Read n m = Some (bs, err, m') → current m' = current m.
Proof.
  unfold Read. destruct (pipe_Read n (pr m)) as [[[? ?] ?]|]; [|done].
  by intros [= _ _ <-].
Qed.

Lemma AwaitBoundary_current ctxErr pick m meta err m' :
  AwaitBoundary ctxErr pick m = Some (meta, err, m') → current m' = current m.
Proof.
  unfold AwaitBoundary.
  destruct (recv_ready (boundary m)), ctxErr, pick, (buf (boundary m));
    try done; by intros [= _ _ <-].
Qed.

(** C10: [Current()] is a total function; on a new multiplexer, and as long
    as the producer has stored no metadata, it returns the zero [SrcMeta].
    Over an empty list of sources the producer never stores any, so this is
    so at every point of the run. *)
Theorem Current_zero_before_first_store :
  Current muxReader_new = {| Name := ""; ByteOffset := 0 |} ∧
  (∀ ops w pre post,
     producer ops w = pre ++ post → (∀ meta, EvStore meta ∉ pre) →
     Current (run pre muxReader_new) = {| Name := ""; ByteOffset := 0 |}) ∧
  (∀ w pre post,
     producer [] w = pre ++ post →
     Current (run pre muxReader_new) = {| Name := ""; ByteOffset := 0 |}).
Proof.
  assert (∀ pre, (∀ meta, EvStore meta ∉ pre) →
            Current (run pre muxReader_new) = SrcMeta_zero) as Hzero.
  { intros pre Hno. unfold Current. by rewrite run_current. }
  split; [done|]. split.
  - intros ops w pre post _ Hno. by apply Hzero.
  - intros w pre post Heq. apply Hzero. intros meta Hin.
    assert (EvStore meta ∈ producer [] w) as Hmem.
    { rewrite Heq. apply elem_of_app. by left. }
    unfold producer in Hmem. simpl in Hmem.
    apply elem_of_cons in Hmem as [?|Hmem]; [done|].
    apply elem_of_cons in Hmem as [?|Hmem]; [done|]. by apply elem_of_nil in Hmem.
Qed.

Lemma Current_zero_before_first_store_witness :
  Current (run [EvOpened 0] muxReader_new) = {| Name := ""; ByteOffset := 0 |} ∧
  Current (run [EvPipeClose; EvDrainAndClose] muxReader_new) =
    {| Name := ""; ByteOffset := 0 |}.
Proof.
  destruct Current_zero_before_first_store as (_ & Hrun & Hempty).
  split.
  - apply (Hrun samples.ops_hello None [EvOpened 0]
             (tail (producer samples.ops_hello None))); [reflexivity|].
    intros meta [?|?%elem_of_nil]%elem_of_cons; done.
  - apply (Hempty None [EvPipeClose; EvDrainAndClose] []). reflexivity.
Defined.

(** ** The boundary mailbox *)

(** C7: the boundary channel is a mailbox of one slot.  In any state of the
    channel one of the two cases of the select in [overwriteLatest] is
    ready, and the loop ends with the new value alone in the buffer: the
    producer does not block and the latest value wins.  A consumer that
    calls [AwaitBoundary] after several boundaries were published receives
    the last one, and the buffer is empty afterwards.  When the producer is
    done the channel is empty and closed, and from then on every
    [AwaitBoundary] under a live context returns [io.EOF] and leaves the
    multiplexer as it is. *)
Theorem boundary_mailbox_coalesces :
  (∀ ch : chan SrcMeta, send_ready ch || recv_ready ch = true) ∧
  (∀ (ch : chan SrcMeta) meta,
     overwriteLatest ch meta = {| buf := [meta]; closed := closed ch |}) ∧
  (∀ evs k meta evs' m pick,
     EvDrainAndClose ∉ evs ++ EvBoundary k meta :: evs' →
     boundaries evs' = [] →
     ∃ m', AwaitBoundary None pick (run (evs ++ EvBoundary k meta :: evs') m) =
             Some (meta, None, m') ∧
           buf (boundary m') = []) ∧
  (∀ ch : chan SrcMeta, drainAndCloseChannel ch = {| buf := []; closed := true |}) ∧
  (∀ ops w pick,
     AwaitBoundary None pick (NewMuxReader ops w) =
       Some (SrcMeta_zero, Some EOF, NewMuxReader ops w)).
Proof.
  split; [|split; [|split; [|split]]].
  - intros [[|v q] c]; done.
  - intros ch meta. unfold overwriteLatest. by rewrite overwriteLatest_buf_latest.
  - intros evs k meta evs' m pick Hno Hnone.
    destruct (run_boundary _ m Hno) as [_ Hbuf].
    rewrite boundaries_app in Hbuf. simpl in Hbuf.
    rewrite Hnone, last_snoc in Hbuf.
    unfold AwaitBoundary, recv_ready. rewrite Hbuf. simpl. by eexists.
  - intros ch. unfold drainAndCloseChannel. by rewrite drain_buf_empty.
  - intros ops w pick. unfold AwaitBoundary.
    by rewrite NewMuxReader_boundary.
Qed.

Lemma boundary_mailbox_coalesces_witness :
  ∃ m', AwaitBoundary None true
          (run [EvBoundary 0 {| Name := "a"; ByteOffset := 0 |};
                EvBoundary 1 {| Name := "b"; ByteOffset := 0 |}] muxReader_new) =
          Some ({| Name := "b"; ByteOffset := 0 |}, None, m') ∧
        buf (boundary m') = [].
Proof.
  destruct boundary_mailbox_coalesces as (_ & _ & Hlate & _).
  apply (Hlate [EvBoundary 0 {| Name := "a"; ByteOffset := 0 |}] 1%nat
           {| Name := "b"; ByteOffset := 0 |} [] muxReader_new true);
    [|reflexivity].
  intros [?|[?|?%elem_of_nil]%elem_of_cons]%elem_of_cons; done.
Defined.

(** ** The test cases of the repository *)

(** "PropagatesOpenError": the text of the error names the source. *)
Example open_error_names_source :
  Error (Errorf ("open " +:+ opener.Name samples.op_bad) (ErrNew "boom")) =
    Some "open bad: boom".
Proof. reflexivity. Qed.

(** "Concats_Boundaries_Current": sources [a = "hello"] and [b = "WORLD"]. *)
Example mux_hello_world :
  boundaries (producer samples.ops_hello None) =
    [{| Name := "a"; ByteOffset := 0 |}; {| Name := "b"; ByteOffset := 0 |}] ∧
  readToEnd 13 512 (NewMuxReader samples.ops_hello None) =
    Some (samples.bytes "helloWORLD", EOF) ∧
  Current (NewMuxReader samples.ops_hello None) = {| Name := "b"; ByteOffset := 5 |}.
Proof. repeat split; reflexivity. Qed.

End multiplexer.

(** * Properties of the decoder *)

Section decoder.

Import connector transform.

Implicit Types (it : csvRowIterator) (row : list string) (meta : SrcMeta).

(** ** [validateHeader] and [isheader] *)

Lemma validateHeader_loop_None h names rest :
  validateHeader_loop h names rest = None ↔
  NoDup rest ∧ ∀ x, x ∈ rest → x ∉ names.
Proof.
  revert names. induction rest as [|name rest IH]; intros names; simpl.
  - split; [intros _; split; [constructor | by intros x ?%elem_of_nil] | done].
  - destruct (decide (name ∈ names)) as [Hin|Hin].
    + split; [done | intros [_ Hfresh]].
      exfalso. apply (Hfresh name); [left | done].
    + rewrite IH, NoDup_cons. split.
      * intros [Hnd Hfresh]. split; [split; [|done] |].
        -- intros Hmem. apply (Hfresh name Hmem).
           apply elem_of_union_l. by apply elem_of_singleton.
        -- intros x [->|Hx]%elem_of_cons; [done|].
           intros Hxn. apply (Hfresh x Hx). by apply elem_of_union_r.
      * intros [[Hnotin Hnd] Hfresh]. split; [done|].
        intros x Hx [->%elem_of_singleton|Hxn]%elem_of_union; [done|].
        apply (Hfresh x); [by right | done].
Qed.

Lemma validateHeader_loop_Some h names rest err :
  validateHeader_loop h names rest = Some err →
  ∃ name, name ∈ rest ∧ err = ErrDuplicateEntry name h.
Proof.
  revert names. induction rest as [|name rest IH]; intros names; simpl; [done|].
  destruct (decide (name ∈ names)).
  - intros [= <-]. exists name. split; [left | done].
  - intros (x & Hx & ->)%IH. exists x. split; [by right | done].
Qed.

Lemma validateHeader_None h : validateHeader h = None ↔ NoDup h.
Proof.
  unfold validateHeader. rewrite validateHeader_loop_None.
  split; [by intros [? _] | intros ?; split; [done | intros x _; apply not_elem_of_empty]].
Qed.

Lemma validateHeader_dup h :
  ¬ NoDup h →
  ∃ name, name ∈ h ∧ validateHeader h = Some (ErrDuplicateEntry name h).
Proof.
  intros Hdup. destruct (validateHeader h) as [err|] eqn:Hv.
  - apply validateHeader_loop_Some in Hv as (name & ? & ->). by exists name.
  - by apply validateHeader_None in Hv.
Qed.

Lemma isheader_true it row : isheader it row = true ↔ row = header it.
Proof.
  unfold isheader. case_bool_decide as Hlen.
  - split; [done | intros ->; done].
  - rewrite forallb_forall. split.
    + intros Hall. symmetry. apply list_eq. intros i.
      destruct (decide (i < length (header it))) as [Hi|Hi].
      * specialize (Hall i). rewrite in_seq in Hall.
        apply (bool_decide_eq_true_1 _), Hall. lia.
      * rewrite !lookup_ge_None_2; [done | lia | lia].
    + intros -> i _. by apply bool_decide_eq_true_2.
Qed.

Lemma isheader_false it row : row ≠ header it → isheader it row = false.
Proof.
  intros Hne. destruct (isheader it row) eqn:Hh; [|done].
  by apply isheader_true in Hh.
Qed.

(** ** The reader *)

Lemma csv_Read_record rd fields meta rest :
  feed (r rd) = (RawRecord fields, meta) :: rest →
  FieldsPerRecord rd = Z.of_nat (length fields) →
  length fields ≠ 0 →
  csv_Read rd = (fields, None, took_row rd meta rest).
Proof.
  intros Hfeed Hn Hpos. unfold csv_Read, next_row, took_row. rewrite Hfeed.
  repeat case_bool_decide; first [done | lia].
Qed.

Lemma csv_Read_wrong_count rd fields meta rest :
  feed (r rd) = (RawRecord fields, meta) :: rest →
  (0 < FieldsPerRecord rd)%Z →
  Z.of_nat (length fields) ≠ FieldsPerRecord rd →
  csv_Read rd = (fields, Some ErrFieldCount, took_row rd meta rest).
Proof.
  intros Hfeed Hpos Hne. unfold csv_Read, next_row, took_row. rewrite Hfeed.
  repeat case_bool_decide; first [done | lia].
Qed.

Lemma csv_Read_error rd e meta rest :
  feed (r rd) = (RawError e, meta) :: rest →
  csv_Read rd = ([], Some e, took_row rd meta rest).
Proof. intros Hfeed. unfold csv_Read, next_row. by rewrite Hfeed. Qed.

Lemma csv_Read_eof rd :
  feed (r rd) = [] → csv_Read rd = ([], Some EOF, at_end rd).
Proof. intros Hfeed. unfold csv_Read, next_row. by rewrite Hfeed. Qed.

(** ** The loop of [Next] *)

Lemma Next_live fuel it : live it → Next fuel it = Next_loop fuel it.
Proof.
  intros [Herr Hh _ _]. unfold Next. rewrite Herr.
  repeat case_bool_decide; done.
Qed.

Lemma Next_loop_mono fuel fuel' it res :
  Next_loop fuel it = Some res → (fuel ≤ fuel')%nat → Next_loop fuel' it = Some res.
Proof.
  revert fuel' it. induction fuel as [|fuel IH]; intros fuel' it; [done|].
  intros Hres Hle. destruct fuel' as [|fuel']; [lia|]. simpl in *.
  destruct (Next_body it); [|done]. apply IH; [done | lia].
Qed.

(** A row that does not start a source is served by the normal path. *)
Lemma Next_body_normal it row meta rest :
  live it →
  feed (srcAwareStream it) = (RawRecord row, meta) :: rest →
  length row = length (header it) →
  atStart it = false → isSourceStart it meta = false →
  Next_body it =
    Ret true (set_lastSourceMeta
                (set_current (set_csvReader it (took_row (csvReader_ it) meta rest))
                   row meta) meta).
Proof.
  intros [Herr Hh Hf Hp] Hfeed Hlen Hat Hss. unfold Next_body. rewrite Hp.
  rewrite (csv_Read_record _ row meta rest); [|done|lia|lia].
  cbn. change (isSourceStart _ meta) with (isSourceStart it meta).
  rewrite Hss. cbn. by rewrite Hat.
Qed.

(** A row that starts a source and equals the header is dropped. *)
Lemma Next_body_header it meta rest :
  live it →
  feed (srcAwareStream it) = (RawRecord (header it), meta) :: rest →
  atStart it = true ∨ isSourceStart it meta = true →
  Next_body it =
    Continue (set_lastSourceMeta
                (set_atStart (set_csvReader it (took_row (csvReader_ it) meta rest))
                   false) meta).
Proof.
  intros [Herr Hh Hf Hp] Hfeed Hstart. unfold Next_body. rewrite Hp.
  rewrite (csv_Read_record _ (header it) meta rest); [|done..].
  cbn. change (isSourceStart _ meta) with (isSourceStart it meta).
  assert (isheader it (header it) = true) as Hhd by by apply isheader_true.
  destruct (isSourceStart it meta) eqn:Hss; cbn.
  - change (isheader _ (header it)) with (isheader it (header it)).
    by rewrite Hhd.
  - destruct Hstart as [Hat|?]; [|done]. rewrite Hat.
    change (isheader _ (header it)) with (isheader it (header it)).
    by rewrite Hhd.
Qed.

(** A row that starts a source and differs from the header goes to the
    pushback buffer. *)
Lemma Next_body_pushback it row meta rest :
  live it →
  feed (srcAwareStream it) = (RawRecord row, meta) :: rest →
  length row = length (header it) → row ≠ header it →
  atStart it = true ∨ isSourceStart it meta = true →
  Next_body it =
    Continue (set_atStart
                (set_hasPending
                   (set_pending
                      (set_atStart
                         (set_csvReader it (took_row (csvReader_ it) meta rest))
                         true)
                      row meta) true) false).
Proof.
  intros [Herr Hh Hf Hp] Hfeed Hlen Hne Hstart. unfold Next_body. rewrite Hp.
  rewrite (csv_Read_record _ row meta rest); [|done|lia|lia].
  cbn. change (isSourceStart _ meta) with (isSourceStart it meta).
  assert (isheader it row = false) as Hhd by by apply isheader_false.
  destruct (isSourceStart it meta) eqn:Hss; cbn.
  - change (isheader _ row) with (isheader it row). by rewrite Hhd.
  - destruct Hstart as [Hat|?]; [|done]. rewrite Hat.
    change (isheader _ row) with (isheader it row). rewrite Hhd.
    destruct it; cbn in *; by subst.
Qed.

Lemma Next_body_pending it :
  hasPending it = true →
  Next_body it =
    Ret true (set_hasPending (set_current it (pending it) (pendingSrcMeta it)) false).
Proof. intros Hp. unfold Next_body. by rewrite Hp. Qed.

Lemma isSourceStart_unnamed it meta :
  Name meta = "" → isSourceStart it meta = true.
Proof.
  intros Hname. unfold isSourceStart. rewrite Hname.
  repeat case_bool_decide; congruence.
Qed.

Lemma isSourceStart_same it meta :
  lastSourceMeta it = meta → Name meta ≠ "" → isSourceStart it meta = false.
Proof.
  intros Hlast Hname. unfold isSourceStart. rewrite Hlast.
  repeat case_bool_decide; simpl; congruence.
Qed.

Lemma isSourceStart_other_name it meta :
  Name meta ≠ Name (lastSourceMeta it) → isSourceStart it meta = true.
Proof. intros Hne. unfold isSourceStart. repeat case_bool_decide; done. Qed.

Lemma Next_body_eof_start it :
  hasPending it = false →
  feed (srcAwareStream it) = [] →
  atStart it = true ∨ isSourceStart it (final (srcAwareStream it)) = true →
  Next_body it =
    Continue (set_lastSourceMeta
                (set_atStart (set_csvReader it (at_end (csvReader_ it))) false)
                (final (srcAwareStream it))).
Proof.
  intros Hp Hfeed Hstart. unfold srcAwareStream in *. unfold Next_body.
  rewrite Hp, csv_Read_eof by done. cbn.
  change (isSourceStart _ ?m) with (isSourceStart it m).
  destruct (isSourceStart it _) eqn:Hss; cbn; [done|].
  destruct Hstart as [Hat|?]; [|done]. by rewrite Hat.
Qed.

Lemma Next_body_eof_normal it :
  hasPending it = false →
  feed (srcAwareStream it) = [] →
  atStart it = false → isSourceStart it (final (srcAwareStream it)) = false →
  Next_body it = Ret false (set_csvReader it (at_end (csvReader_ it))).
Proof.
  intros Hp Hfeed Hat Hss. unfold srcAwareStream in *. unfold Next_body.
  rewrite Hp, csv_Read_eof by done. cbn.
  change (isSourceStart _ ?m) with (isSourceStart it m).
  rewrite Hss. cbn. by rewrite Hat.
Qed.

Lemma Next_loop_S fuel it :
  Next_loop (S fuel) it =
    match Next_body it with
    | Ret b it' => Some (b, it')
    | Continue it' => Next_loop fuel it'
    end.
Proof. done. Qed.

(** At the end of a stream whose last published source has a name, the loop
    returns [false] within two passes and leaves the record and the error
    as they were. *)
Lemma Next_loop_exhausted it :
  hasPending it = false →
  feed (srcAwareStream it) = [] →
  Name (final (srcAwareStream it)) ≠ "" →
  ∃ it', Next_loop 2 it = Some (false, it') ∧
         decoderError it' = decoderError it ∧
         current it' = current it ∧ currentSrcMeta it' = currentSrcMeta it ∧
         header it' = header it ∧ hasPending it' = false ∧
         feed (srcAwareStream it') = [] ∧
         final (srcAwareStream it') = final (srcAwareStream it) ∧
         FieldsPerRecord (csvReader_ it') = FieldsPerRecord (csvReader_ it).
Proof.
  intros Hp Hfeed Hname.
  destruct (decide (atStart it = true ∨
                    isSourceStart it (final (srcAwareStream it)) = true))
    as [Hstart|Hnot].
  - rewrite Next_loop_S, Next_body_eof_start by done.
    rewrite Next_loop_S, Next_body_eof_normal; [by eexists | done..|].
    by apply isSourceStart_same.
  - rewrite Next_loop_S, Next_body_eof_normal; [by eexists | done..| |].
    + destruct (atStart it); [|done]. destruct Hnot; by left.
    + destruct (isSourceStart it _); [|done]. destruct Hnot; by right.
Qed.

(** At the end of a stream whose last published source has the empty name,
    every pass ends in [continue]: the loop does not return. *)
Lemma Next_loop_spins it :
  hasPending it = false →
  feed (srcAwareStream it) = [] →
  Name (final (srcAwareStream it)) = "" →
  ∀ fuel, Next_loop fuel it = None.
Proof.
  intros Hp Hfeed Hname fuel. revert it Hp Hfeed Hname.
  induction fuel as [|fuel IH]; intros it Hp Hfeed Hname; [done|].
  rewrite Next_loop_S, Next_body_eof_start; [by apply IH | done..|].
  right. by apply isSourceStart_unnamed.
Qed.

(** ** The sticky error *)

Lemma Next_sticky fuel it e :
  Err it = Some e → Next fuel it = Some (false, it).
Proof.
  unfold Err, Next. intros ->. by rewrite bool_decide_eq_true_2.
Qed.

Lemma Next_times_sticky n fuel it e :
  Err it = Some e → Next_times n fuel it = Some (false, it).
Proof.
  intros He. induction n as [|n IH]; simpl; by rewrite (Next_sticky _ _ e).
Qed.

(** ** [Decode] *)

#[local] Arguments validateHeader : simpl never.
#[local] Arguments buildIndex : simpl never.

Lemma csv_Read_first rd fields meta rest :
  feed (r rd) = (RawRecord fields, meta) :: rest →
  FieldsPerRecord rd = 0%Z →
  csv_Read rd =
    (fields, None,
     {| r := {| feed := rest; now := meta; final := final (r rd) |};
        Comma := Comma rd; FieldsPerRecord := Z.of_nat (length fields) |}).
Proof.
  intros Hfeed Hn. unfold csv_Read, next_row. rewrite Hfeed, Hn.
  repeat case_bool_decide; first [done | lia].
Qed.

Lemma Decode_explicit d rc :
  d_header d ≠ [] → NoDup (d_header d) →
  Decode d rc = inr (new_iterator (comma d) (d_header d) rc).
Proof.
  intros Hne Hnd. unfold Decode.
  case_bool_decide; [by destruct (d_header d)|].
  cbn. apply validateHeader_None in Hnd. by rewrite Hnd.
Qed.

Lemma Decode_inferred d rc h meta rest :
  d_header d = [] → feed rc = (RawRecord h, meta) :: rest → NoDup h →
  Decode d rc =
    inr (new_iterator (comma d) h {| feed := rest; now := meta; final := final rc |}).
Proof.
  intros Hd Hfeed Hnd. unfold Decode.
  rewrite Hd. case_bool_decide; [|done].
  rewrite (csv_Read_first _ h meta rest) by done. cbn.
  apply validateHeader_None in Hnd. by rewrite Hnd.
Qed.

(** C9: [Decode] returns an error, and with it no iterator and so no
    record, when the header in force holds a name twice, be it the explicit
    header or the first row the header is inferred from, and when no header
    is configured and the stream yields no first row, because it ends or
    because its first read fails.  The errors are "malformed header:
    duplicate entry ..." and "unable to infer header from first record:
    ...". *)
Theorem Decode_configuration_error d rc :
  (d_header d ≠ [] → ¬ NoDup (d_header d) →
   ∃ name, name ∈ d_header d ∧
     Decode d rc =
       inl (Errorf "malformed header" (ErrDuplicateEntry name (d_header d)))) ∧
  (∀ h meta rest,
     d_header d = [] → feed rc = (RawRecord h, meta) :: rest → ¬ NoDup h →
     ∃ name, name ∈ h ∧
       Decode d rc = inl (Errorf "malformed header" (ErrDuplicateEntry name h))) ∧
  (d_header d = [] → feed rc = [] →
   Decode d rc = inl (Errorf "unable to infer header from first record" EOF)) ∧
  (∀ e meta rest,
     d_header d = [] → feed rc = (RawError e, meta) :: rest →
     Decode d rc = inl (Errorf "unable to infer header from first record" e)).
Proof.
  split; [|split; [|split]].
  - intros Hne Hdup. destruct (validateHeader_dup _ Hdup) as (name & Hin & Hv).
    exists name. split; [done|]. unfold Decode.
    case_bool_decide; [by destruct (d_header d)|].
    cbn. by rewrite Hv.
  - intros h meta rest Hd Hfeed Hdup.
    destruct (validateHeader_dup _ Hdup) as (name & Hin & Hv).
    exists name. split; [done|]. unfold Decode.
    rewrite Hd. case_bool_decide; [|done].
    rewrite (csv_Read_first _ h meta rest) by done. cbn. by rewrite Hv.
  - intros Hd Hfeed. unfold Decode. rewrite Hd. case_bool_decide; [|done].
    by rewrite csv_Read_eof.
  - intros e meta rest Hd Hfeed. unfold Decode. rewrite Hd.
    case_bool_decide; [|done]. by rewrite (csv_Read_error _ e meta rest).
Qed.

Lemma Decode_configuration_error_witness :
  (∃ name,
     Decode samples.inferring samples.rc_duplicate =
       inl (Errorf "malformed header" (ErrDuplicateEntry name ["col1"; "col1"]))) ∧
  Decode samples.inferring samples.rc_empty =
    inl (Errorf "unable to infer header from first record" EOF).
Proof.
  destruct (Decode_configuration_error samples.inferring samples.rc_duplicate)
    as (_ & Hdup & _ & _).
  destruct (Decode_configuration_error samples.inferring samples.rc_empty)
    as (_ & _ & Hempty & _).
  split.
  - destruct (Hdup ["col1"; "col1"] (samples.src1 16)
                [(RawRecord ["a1"; "b1"], samples.src1 16)])
      as (name & _ & Heq); [reflexivity | reflexivity | | by exists name].
    intros Hnd. apply NoDup_cons in Hnd as [Hnotin _]. apply Hnotin. left.
  - apply Hempty; reflexivity.
Defined.

(** ** The first row of a source *)

(** C2: at a detected source start, a first row with as many fields as the
    canonical header but different from it is not dropped.  The pass that
    reads it puts it, with the metadata read along with it, in the pushback
    buffer; the following pass serves exactly that row with that metadata,
    and [Next] returns [true].  No later row has been read by then. *)
Theorem first_row_unlike_header_is_served it row meta rest :
  live it →
  feed (srcAwareStream it) = (RawRecord row, meta) :: rest →
  atStart it = true ∨ isSourceStart it meta = true →
  length row = length (header it) → row ≠ header it →
  ∃ it1 it2,
    Next_body it = Continue it1 ∧
    hasPending it1 = true ∧ pending it1 = row ∧ pendingSrcMeta it1 = meta ∧
    Next_body it1 = Ret true it2 ∧
    (∀ fuel, (2 ≤ fuel)%nat → Next fuel it = Some (true, it2)) ∧
    se_current (Record_ it2) = row ∧ Meta (Record_ it2) = meta ∧
    feed (srcAwareStream it2) = rest ∧
    hasPending it2 = false ∧ Err it2 = None.
Proof.
  intros Hlive Hfeed Hstart Hlen Hne.
  pose proof (Next_body_pushback it row meta rest Hlive Hfeed Hlen Hne Hstart)
    as Hfirst.
  eexists _, _. split; [exact Hfirst|].
  split; [done|]. split; [done|]. split; [done|].
  split; [by apply Next_body_pending|].
  split; [|by destruct Hlive].
  intros fuel Hfuel. rewrite Next_live by done.
  apply (Next_loop_mono 2); [|done].
  by rewrite Next_loop_S, Hfirst, Next_loop_S, Next_body_pending.
Qed.

Lemma first_row_unlike_header_is_served_witness :
  ∃ it1 it2,
    Next_body samples.it_mismatch = Continue it1 ∧
    hasPending it1 = true ∧ pending it1 = ["x"; "y"] ∧
    pendingSrcMeta it1 = samples.src2 10 ∧
    Next_body it1 = Ret true it2 ∧
    (∀ fuel, (2 ≤ fuel)%nat → Next fuel samples.it_mismatch = Some (true, it2)) ∧
    se_current (Record_ it2) = ["x"; "y"] ∧
    Meta (Record_ it2) = samples.src2 10 ∧
    feed (srcAwareStream it2) = [(RawRecord ["a2"; "b2"], samples.src2 10)] ∧
    hasPending it2 = false ∧ Err it2 = None.
Proof.
  apply (first_row_unlike_header_is_served samples.it_mismatch ["x"; "y"]
           (samples.src2 10) [(RawRecord ["a2"; "b2"], samples.src2 10)]).
  - split; [reflexivity | simpl; lia | reflexivity | reflexivity].
  - reflexivity.
  - right. reflexivity.
  - reflexivity.
  - intros Heq. discriminate Heq.
Defined.

(** C1, as the code has it: at a detected source start, a first row equal
    to the canonical header is dropped: it is neither served nor put in the
    pushback buffer, and the advance goes on as if the row had not been
    there.  The iterator then leaves the source-start state ([atStart] is
    cleared, the row's metadata becomes the last observed one): a next row
    is classified again only when its own metadata starts a source, as it
    does when it names another source, and is served as data otherwise.
    When the stream ends after the header and its last source has a name,
    [Next] returns [false] with no error and no new record. *)
Theorem header_row_at_source_start_is_dropped it meta rest :
  live it →
  feed (srcAwareStream it) = (RawRecord (header it), meta) :: rest →
  atStart it = true ∨ isSourceStart it meta = true →
  ∃ it1,
    Next_body it = Continue it1 ∧
    (∀ fuel, Next (S fuel) it = Next fuel it1) ∧
    live it1 ∧ feed (srcAwareStream it1) = rest ∧
    current it1 = current it ∧ currentSrcMeta it1 = currentSrcMeta it ∧
    atStart it1 = false ∧ lastSourceMeta it1 = meta ∧
    (∀ row2 meta2 rest2,
       rest = (RawRecord row2, meta2) :: rest2 →
       Name meta2 ≠ Name meta → isSourceStart it1 meta2 = true) ∧
    (∀ row2 meta2 rest2,
       rest = (RawRecord row2, meta2) :: rest2 →
       length row2 = length (header it) →
       isSourceStart it1 meta2 = false →
       ∃ it2, (∀ fuel, (2 ≤ fuel)%nat → Next fuel it = Some (true, it2)) ∧
              se_current (Record_ it2) = row2 ∧ Meta (Record_ it2) = meta2) ∧
    (rest = [] → Name (final (srcAwareStream it)) ≠ "" →
     ∃ it2, (∀ fuel, (3 ≤ fuel)%nat → Next fuel it = Some (false, it2)) ∧
            Err it2 = None ∧
            current it2 = current it ∧ currentSrcMeta it2 = currentSrcMeta it).
Proof.
  intros Hlive Hfeed Hstart.
  pose proof (Next_body_header it meta rest Hlive Hfeed Hstart) as Hfirst.
  set (it1 := set_lastSourceMeta _ meta) in Hfirst.
  assert (live it1) as Hlive1 by (by destruct Hlive).
  assert (∀ fuel, Next (S fuel) it = Next fuel it1) as Hnext.
  { intros fuel. by rewrite !Next_live, Next_loop_S, Hfirst by done. }
  exists it1. split; [exact Hfirst|]. split; [exact Hnext|].
  split; [exact Hlive1|]. do 5 (split; [reflexivity|]).
  split; [|split].
  - intros row2 meta2 rest2 _ Hname. by apply isSourceStart_other_name.
  - intros row2 meta2 rest2 -> Hlen Hss.
    eexists. split.
    { intros fuel Hfuel. destruct fuel as [|fuel]; [lia|].
      rewrite Hnext, Next_live by done. apply (Next_loop_mono 1); [|lia].
      by rewrite Next_loop_S,
           (Next_body_normal it1 row2 meta2 rest2) by done. }
    split; reflexivity.
  - intros -> Hname.
    destruct (Next_loop_exhausted it1) as (it2 & Hloop & Herr & Hcur & Hmeta & _);
      [by destruct Hlive1 | reflexivity | exact Hname |].
    exists it2. split; [|split; [|done]].
    + intros fuel Hfuel. destruct fuel as [|fuel]; [lia|].
      rewrite Hnext, Next_live by done. apply (Next_loop_mono 2); [done | lia].
    + unfold Err. rewrite Herr. by destruct Hlive.
Qed.

Lemma header_row_at_source_start_is_dropped_witness :
  ∃ it1 it2,
    Next_body samples.it_header = Continue it1 ∧
    atStart it1 = false ∧ hasPending it1 = false ∧
    current it1 = current samples.it_header ∧
    Next 2 samples.it_header = Some (true, it2) ∧
    se_current (Record_ it2) = ["a2"; "b2"].
Proof.
  destruct (header_row_at_source_start_is_dropped samples.it_header
              (samples.src2 16) [(RawRecord ["a2"; "b2"], samples.src2 16)])
    as (it1 & Hbody & _ & Hlive & _ & Hcur & _ & Hat & _ & _ & Hnext & _).
  - split; [reflexivity | simpl; lia | reflexivity | reflexivity].
  - reflexivity.
  - right. reflexivity.
  - destruct (Hnext ["a2"; "b2"] (samples.src2 16) [])
      as (it2 & Hserved & Hrow & _); [reflexivity | reflexivity | |].
    + rewrite <- (isSourceStart_same it1 (samples.src2 16)); [reflexivity | |].
      * transitivity (samples.src2 16); [|reflexivity].
        apply (f_equal (fun x => match x with
                                 | Continue i => lastSourceMeta i
                                 | Ret _ i => lastSourceMeta i
                                 end)) in Hbody.
        symmetry. exact Hbody.
      * discriminate.
    + exists it1, it2. split; [exact Hbody|]. split; [exact Hat|].
      split; [by destruct Hlive|]. split; [exact Hcur|].
      split; [apply Hserved; lia | exact Hrow].
Defined.

(** C1, as the claim words it, fails: the iterator does not stay in the
    source-start state once it has dropped a header row.  Here the source
    that starts holds the header twice and then [a2,b2].  The first copy is
    dropped and [atStart] is cleared; the second copy, a row of the same
    source, is then no source start, and [Next] serves it as a record. *)
Lemma header_drop_leaves_source_start :
  let it := samples.it_header_twice in
  let it1 :=
    set_lastSourceMeta
      (set_atStart
         (set_csvReader it
            (took_row (csvReader_ it) (samples.src2 26)
               [(RawRecord ["col1"; "col2"], samples.src2 26);
                (RawRecord ["a2"; "b2"], samples.src2 26)]))
         false)
      (samples.src2 26) in
  isSourceStart it (samples.src2 26) = true ∧
  Next_body it = Continue it1 ∧
  atStart it1 = false ∧
  isSourceStart it1 (samples.src2 26) = false ∧
  calls 2 3 it =
    [(true, ["col1"; "col2"], samples.src2 26, None);
     (true, ["a2"; "b2"], samples.src2 26, None)].
Proof.
  intros it it1. split; [by vm_compute|]. split; [|split; [|split]].
  - apply (Next_body_header it (samples.src2 26)).
    + split; [reflexivity | simpl; lia | reflexivity | reflexivity].
    + reflexivity.
    + right. by vm_compute.
  - reflexivity.
  - by vm_compute.
  - by vm_compute.
Qed.

(** ** Errors and the end of the stream *)

(** A row the reader rejects, be it malformed or of the wrong field count,
    ends [Next] with [false] and becomes the iterator's error. *)
Lemma Next_body_failure it e meta rest :
  hasPending it = false →
  feed (srcAwareStream it) = (RawError e, meta) :: rest → e ≠ EOF →
  ∃ it', Next_body it = Ret false it' ∧ Err it' = Some e.
Proof.
  intros Hp Hfeed Hne. unfold Next_body.
  rewrite Hp, (csv_Read_error _ e meta rest) by done. cbn.
  change (isSourceStart _ meta) with (isSourceStart it meta).
  destruct (isSourceStart it meta); cbn.
  - destruct (decide (e = EOF)); [done | by eexists].
  - destruct (atStart it), (decide (e = EOF)); try done; by eexists.
Qed.

Lemma Next_body_wrong_count it row meta rest :
  live it →
  feed (srcAwareStream it) = (RawRecord row, meta) :: rest →
  length row ≠ length (header it) →
  ∃ it', Next_body it = Ret false it' ∧ Err it' = Some ErrFieldCount.
Proof.
  intros [Herr Hh Hf Hp] Hfeed Hne. unfold Next_body.
  rewrite Hp, (csv_Read_wrong_count _ row meta rest); [|done|lia|lia]. cbn.
  change (isSourceStart _ meta) with (isSourceStart it meta).
  destruct (isSourceStart it meta); cbn; [by eexists|].
  destruct (atStart it); by eexists.
Qed.

(** The sticky error: when the next row is rejected, this call of [Next] and
    every later one return [false], and [Err] keeps returning that error. *)
Theorem Next_failure_is_sticky it meta rest e :
  live it →
  (feed (srcAwareStream it) = (RawError e, meta) :: rest ∧ e ≠ EOF) ∨
  (∃ row, feed (srcAwareStream it) = (RawRecord row, meta) :: rest ∧
          length row ≠ length (header it) ∧ e = ErrFieldCount) →
  ∃ it', Err it' = Some e ∧
    ∀ n fuel, (1 ≤ fuel)%nat → Next_times n fuel it = Some (false, it').
Proof.
  intros Hlive Hrow.
  assert (∃ it', Next_body it = Ret false it' ∧ Err it' = Some e)
    as (it' & Hbody & Herr).
  { destruct Hrow as [[Hfeed Hne]|(row & Hfeed & Hlen & ->)].
    - apply (Next_body_failure it e meta rest); [by destruct Hlive | done..].
    - by apply (Next_body_wrong_count it row meta rest). }
  exists it'. split; [done|]. intros n fuel Hfuel.
  assert (Next fuel it = Some (false, it')) as Hfirst.
  { rewrite Next_live by done. apply (Next_loop_mono 1); [|done].
    by rewrite Next_loop_S, Hbody. }
  destruct n as [|n]; simpl; rewrite Hfirst; [done|].
  by apply (Next_times_sticky _ _ _ e).
Qed.

(** The clean end: once the stream has ended and its last source has a
    name, this call of [Next] and every later one return [false], and [Err]
    stays nil. *)
Theorem Next_clean_end it :
  live it →
  feed (srcAwareStream it) = [] →
  Name (final (srcAwareStream it)) ≠ "" →
  ∀ n fuel, (2 ≤ fuel)%nat →
    ∃ it', Next_times n fuel it = Some (false, it') ∧ Err it' = None.
Proof.
  intros Hlive Hfeed Hname n fuel Hfuel. revert it Hlive Hfeed Hname.
  induction n as [|n IH]; intros it Hlive Hfeed Hname;
    destruct (Next_loop_exhausted it)
      as (it' & Hloop & Herr & _ & _ & Hh & Hp & Hfeed' & Hfinal & Hfpr);
      try done; try (by destruct Hlive);
    assert (Next fuel it = Some (false, it')) as Hfirst
      by (rewrite Next_live by done; by apply (Next_loop_mono 2)).
  - exists it'. split; [done|]. unfold Err. rewrite Herr. by destruct Hlive.
  - simpl. rewrite Hfirst. apply IH; [|done|by rewrite Hfinal].
    destruct Hlive as [He Hhd Hf _]. split; [congruence.. | done].
Qed.

(** ** The test cases of the repository *)

(** "header skip on new source": the header is inferred once, both header
    rows are dropped and the two data rows are served in order; the third
    call ends the iteration without error. *)
Example header_skip_on_new_source :
  decode_and_read samples.inferring samples.rc_header_skip 3 3 =
    inr [(true, ["a1"; "b1"], samples.src1 16, None);
         (true, ["a2"; "b2"], samples.src2 16, None);
         (false, ["a2"; "b2"], samples.src2 16, None)].
Proof. by vm_compute. Qed.

(** "malformed header". *)
Example malformed_header :
  decode_and_read samples.inferring samples.rc_duplicate 1 3 =
    inl (Errorf "malformed header" (ErrDuplicateEntry "col1" ["col1"; "col1"])).
Proof. by vm_compute. Qed.

Lemma Next_never_returns it :
  live it →
  feed (srcAwareStream it) = [] →
  Name (final (srcAwareStream it)) = "" →
  ∀ fuel, Next fuel it = None.
Proof.
  intros Hlive Hfeed Hname fuel. rewrite Next_live by done.
  apply Next_loop_spins; [by destruct Hlive | done..].
Qed.

(** C4, where the code departs from it: at the clean end of a stream whose
    last published source name is empty, [Next] does not return [false], it
    does not return at all.  Under the explicit header [a], a single source
    of empty name holding the row [1] yields that row, and the next call of
    [Next] runs out of any number of passes; so does the very first call
    over an empty list of sources. *)
Theorem Next_spins_at_unnamed_end :
  let it0 := new_iterator 44 ["a"] samples.rc_unnamed in
  let it0' := new_iterator 44 ["a"] samples.rc_no_sources in
  Decode samples.explicit_a samples.rc_unnamed = inr it0 ∧
  (∃ it1,
     Next 2 it0 = Some (true, it1) ∧
     se_current (Record_ it1) = ["1"] ∧ Err it1 = None ∧
     feed (srcAwareStream it1) = [] ∧
     ∀ fuel, Next fuel it1 = None) ∧
  Decode samples.explicit_a samples.rc_no_sources = inr it0' ∧
  ∀ fuel, Next fuel it0' = None.
Proof.
  intros it0 it0'.
  assert (NoDup ["a"]) as Hnd by apply NoDup_singleton.
  assert (live it0) as Hlive0
    by (split; [reflexivity | simpl; lia | reflexivity | reflexivity]).
  assert (live it0') as Hlive0'
    by (split; [reflexivity | simpl; lia | reflexivity | reflexivity]).
  split; [by apply (Decode_explicit samples.explicit_a)|].
  split; [|split; [by apply (Decode_explicit samples.explicit_a)|]].
  - eexists. split.
    { rewrite Next_live, Next_loop_S by done.
      rewrite (Next_body_pushback it0 ["1"] {| Name := ""; ByteOffset := 2 |} []);
        [|done|reflexivity|reflexivity|discriminate|right; reflexivity].
      rewrite Next_loop_S, Next_body_pending by reflexivity. reflexivity. }
    do 3 (split; [reflexivity|]).
    apply Next_never_returns; [|reflexivity..].
    split; [reflexivity | simpl; lia | reflexivity | reflexivity].
  - apply Next_never_returns; [done | reflexivity..].
Qed.

End decoder.

(** * Further properties of the decoder *)

Section decoder_more.

Import connector transform decoder_views.

Implicit Types (it : csvRowIterator) (row : list string) (meta : SrcMeta).

(** ** One pass of the loop *)

(** What one pass does to an iterator with an empty pushback buffer: it
    serves the first row of the feed, or moves it to the pushback buffer,
    or passes over it, or stops. *)
Lemma Next_body_progress it :
  live it →
  match Next_body it with
  | Ret true it1 =>
      live it1 ∧ length (current it1) = length (header it) ∧
      feed (srcAwareStream it) =
        (RawRecord (current it1), currentSrcMeta it1) :: feed (srcAwareStream it1)
  | Ret false it1 => hasPending it1 = false
  | Continue it1 =>
      (hasPending it1 = true ∧ decoderError it1 = None ∧
       length (pending it1) = length (header it) ∧
       feed (srcAwareStream it) =
         (RawRecord (pending it1), pendingSrcMeta it1) :: feed (srcAwareStream it1))
      ∨ (live it1 ∧
         ((feed (srcAwareStream it) = [] ∧ feed (srcAwareStream it1) = []) ∨
          ∃ x, feed (srcAwareStream it) = x :: feed (srcAwareStream it1) ∧
               passed_over it x))
  end ∧
  match Next_body it with
  | Ret _ it1 | Continue it1 =>
      header it1 = header it ∧ invertedIndex it1 = invertedIndex it ∧
      FieldsPerRecord (csvReader_ it1) = FieldsPerRecord (csvReader_ it) ∧
      final (srcAwareStream it1) = final (srcAwareStream it)
  end.
Proof.
  intros Hlive. pose proof Hlive as [Herr Hh Hf Hp].
  destruct (feed (srcAwareStream it)) as [|[[row|e] meta] rest] eqn:Hfeed.
  - destruct (decide (atStart it = true ∨
                      isSourceStart it (final (srcAwareStream it)) = true))
      as [Hstart|Hnot].
    + rewrite Next_body_eof_start by done. split; [|done].
      right. split; [done|]. by left.
    + rewrite Next_body_eof_normal; [done..| |].
      * destruct (atStart it); [|done]. destruct Hnot; by left.
      * destruct (isSourceStart it _); [|done]. destruct Hnot; by right.
  - destruct (decide (length row = length (header it))) as [Hlen|Hlen].
    + destruct (decide (atStart it = true ∨ isSourceStart it meta = true))
        as [Hstart|Hnot].
      * destruct (decide (row = header it)) as [->|Hne].
        -- rewrite (Next_body_header it meta rest) by done. split; [|done].
           right. split; [done|]. right. eexists. split; [done|].
           by intros fields [= <-].
        -- rewrite (Next_body_pushback it row meta rest) by done.
           split; [|done]. left. done.
      * rewrite (Next_body_normal it row meta rest); [done..| |].
        -- destruct (atStart it); [|done]. destruct Hnot; by left.
        -- destruct (isSourceStart it meta); [|done]. destruct Hnot; by right.
    + unfold Next_body. rewrite Hp.
      rewrite (csv_Read_wrong_count _ row meta rest); [|done|lia|lia]. cbn.
      change (isSourceStart _ meta) with (isSourceStart it meta).
      destruct (isSourceStart it meta); cbn; [done|].
      destruct (atStart it); done.
  - unfold Next_body. rewrite Hp, (csv_Read_error _ e meta rest) by done. cbn.
    change (isSourceStart _ meta) with (isSourceStart it meta).
    assert (passed_over it (RawError e, meta)) as Hover by (by intros fields).
    destruct (isSourceStart it meta); cbn.
    + destruct (decide (e = EOF)); [|done]. split; [|done].
      right. split; [done|]. right. by eexists.
    + destruct (atStart it); destruct (decide (e = EOF)); try done.
      split; [|done]. right. split; [done|]. right. by eexists.
Qed.

(** ** Whole calls of [Next] *)

Lemma Next_loop_served fuel it b it' :
  live it → Next_loop fuel it = Some (b, it') →
  header it' = header it ∧ invertedIndex it' = invertedIndex it ∧
  FieldsPerRecord (csvReader_ it') = FieldsPerRecord (csvReader_ it) ∧
  final (srcAwareStream it') = final (srcAwareStream it) ∧
  hasPending it' = false ∧
  (b = true →
   decoderError it' = None ∧
   length (current it') = length (header it) ∧
   ∃ pre,
     feed (srcAwareStream it) =
       pre ++ (RawRecord (current it'), currentSrcMeta it')
           :: feed (srcAwareStream it') ∧
     Forall (passed_over it) pre).
Proof.
  revert it. induction fuel as [|fuel IH]; intros it Hlive; [done|].
  rewrite Next_loop_S.
  pose proof (Next_body_progress it Hlive) as [Hstep Hframe].
  destruct (Next_body it) as [it1|[|] it1].
  - destruct Hframe as (Hh1 & Hi1 & Hf1 & Hfin1).
    destruct Hstep as [(Hp1 & He1 & Hlen1 & Hfeed1)|[Hlive1 Hfeed1]].
    + destruct fuel as [|fuel]; [done|].
      rewrite Next_loop_S, Next_body_pending by done.
      intros [= <- <-]. cbn.
      do 5 (split; [done|]). intros _. do 2 (split; [done|]).
      exists []. by split.
    + intros Hloop. apply IH in Hloop as (Hh & Hi & Hf & Hfin & Hp & Hserved); [|done].
      split; [congruence|]. split; [congruence|]. split; [congruence|].
      split; [congruence|]. split; [done|].
      intros ->. destruct Hserved as (He & Hlen & pre & Hfeed & Hpre); [done|].
      split; [done|]. split; [congruence|].
      destruct Hfeed1 as [[_ Hnil]|(x & Hx & Hover)].
      * rewrite Hnil in Hfeed. by destruct pre.
      * exists (x :: pre). split; [by rewrite Hx, Hfeed|].
        constructor; [done|].
        eapply Forall_impl; [exact Hpre|].
        intros y Hy fields Hfields. rewrite <- Hh1. by apply Hy.
  - intros [= <- <-]. destruct Hframe as (Hh1 & Hi1 & Hf1 & Hfin1).
    destruct Hstep as (Hlive1 & Hlen1 & Hfeed1).
    do 4 (split; [done|]). split; [by destruct Hlive1|]. intros _.
    split; [by destruct Hlive1|]. split; [done|]. exists []. by split.
  - intros [= <- <-]. destruct Hframe as (Hh1 & Hi1 & Hf1 & Hfin1).
    do 4 (split; [done|]). split; [done|]. done.
Qed.

(** X1: [Next] loses no data.  When a call of [Next] returns [true], the
    record it serves is a row of the stream, with the metadata read along
    with it; what is left to read is what followed that row; and every row
    that parses and was passed over on the way equals the canonical header.
    The iterator is ready for the next call. *)
Theorem Next_skips_only_header_rows fuel it it' :
  live it → Next fuel it = Some (true, it') →
  live it' ∧
  ∃ pre,
    feed (srcAwareStream it) =
      pre ++ (RawRecord (se_current (Record_ it')), Meta (Record_ it'))
          :: feed (srcAwareStream it') ∧
    Forall (passed_over it) pre.
Proof.
  intros Hlive. rewrite Next_live by done. intros Hloop.
  apply Next_loop_served in Hloop
    as (Hh & Hi & Hf & Hfin & Hp & Hserved); [|done].
  destruct Hserved as (He & Hlen & pre & Hfeed & Hpre); [done|].
  split; [|by exists pre].
  destruct Hlive as [_ Hhd Hfpr _]. split; [done | congruence.. | done].
Qed.

Lemma Next_skips_only_header_rows_witness :
  ∃ it' pre,
    Next 2 samples.it_header = Some (true, it') ∧
    feed (srcAwareStream samples.it_header) =
      pre ++ (RawRecord (se_current (Record_ it')), Meta (Record_ it'))
          :: feed (srcAwareStream it') ∧
    Forall (passed_over samples.it_header) pre.
Proof.
  assert (live samples.it_header) as Hlive
    by (split; [reflexivity | simpl; lia | reflexivity | reflexivity]).
  destruct (Next 2 samples.it_header) as [[[|] it']|] eqn:Hnext;
    [|exfalso; revert Hnext; by vm_compute..].
  destruct (Next_skips_only_header_rows 2 samples.it_header it' Hlive Hnext)
    as (_ & pre & Hfeed & Hpre).
  by exists it', pre.
Defined.

(** X2: the canonical header is fixed and enforced.  A call of [Next] never
    changes the header, its index or the field count the reader enforces,
    whatever it returns; and a record it serves has exactly as many fields
    as the header. *)
Theorem Next_keeps_header_and_field_count fuel it b it' :
  live it → Next fuel it = Some (b, it') →
  Names (Record_ it') = header it ∧
  invertedIndex it' = invertedIndex it ∧
  FieldsPerRecord (csvReader_ it') = Z.of_nat (length (header it)) ∧
  (b = true → Len (Record_ it') = Z.of_nat (length (header it))).
Proof.
  intros Hlive. rewrite Next_live by done. intros Hloop.
  apply Next_loop_served in Hloop
    as (Hh & Hi & Hf & Hfin & Hp & Hserved); [|done].
  split; [done|]. split; [done|]. split; [by destruct Hlive; congruence|].
  intros ->. destruct Hserved as (_ & Hlen & _); [done|].
  unfold Len. cbn. by rewrite Hlen.
Qed.

Lemma Next_keeps_header_and_field_count_witness :
  ∃ b it',
    Next 2 samples.it_mismatch = Some (b, it') ∧
    Names (Record_ it') = ["col1"; "col2"] ∧
    (b = true → Len (Record_ it') = 2%Z).
Proof.
  assert (live samples.it_mismatch) as Hlive
    by (split; [reflexivity | simpl; lia | reflexivity | reflexivity]).
  destruct (Next 2 samples.it_mismatch) as [[b it']|] eqn:Hnext;
    [|exfalso; revert Hnext; by vm_compute].
  destruct (Next_keeps_header_and_field_count 2 samples.it_mismatch b it'
              Hlive Hnext) as (Hnames & _ & _ & Hlen).
  by exists b, it'.
Defined.

(** X3: [Next] returns.  When the last source the multiplexer published has
    a name, a call of [Next] returns after at most one pass per row left in
    the stream and two more. *)
Theorem Next_returns it :
  live it →
  Name (final (srcAwareStream it)) ≠ "" →
  ∀ fuel, (length (feed (srcAwareStream it)) + 2 ≤ fuel)%nat →
    ∃ b it', Next fuel it = Some (b, it').
Proof.
  intros Hlive Hname fuel Hfuel. rewrite Next_live by done.
  enough (∃ res, Next_loop (length (feed (srcAwareStream it)) + 2) it = Some res)
    as [[b it'] Hres].
  { exists b, it'. by apply (Next_loop_mono _ _ _ _ Hres). }
  clear fuel Hfuel.
  remember (length (feed (srcAwareStream it))) as n eqn:Hn.
  revert it Hlive Hname Hn. induction n as [|n IH]; intros it Hlive Hname Hn.
  - destruct (Next_loop_exhausted it) as (it' & Hloop & _);
      [by destruct Hlive | by destruct (feed (srcAwareStream it)) | done |].
    by eexists.
  - replace (S n + 2)%nat with (S (n + 2)) by lia. rewrite Next_loop_S.
    pose proof (Next_body_progress it Hlive) as [Hstep Hframe].
    destruct (Next_body it) as [it1|b it1]; [|by eexists].
    destruct Hframe as (_ & _ & _ & Hfin).
    destruct Hstep as [(Hp1 & _)|[Hlive1 Hfeed1]].
    + replace (n + 2)%nat with (S (n + 1)) by lia.
      rewrite Next_loop_S, Next_body_pending by done. by eexists.
    + destruct Hfeed1 as [[Hnil _]|(x & Hx & _)].
      * rewrite Hnil in Hn. done.
      * apply IH; [done | by rewrite Hfin |].
        rewrite Hx in Hn. simpl in Hn. lia.
Qed.

Lemma Next_returns_witness :
  ∃ b it', Next 4 samples.it_header = Some (b, it').
Proof.
  apply (Next_returns samples.it_header);
    [split; [reflexivity | simpl; lia | reflexivity | reflexivity]
    | discriminate | simpl; lia].
Defined.

(** ** The header index and lookups in a record *)

Lemma buildIndex_loop_lookup invIndex idx names name i :
  NoDup names →
  buildIndex_loop invIndex idx names !! name = Some i ↔
  (∃ j, names !! j = Some name ∧ i = (idx + j)%nat) ∨
  ((name ∉ names) ∧ invIndex !! name = Some i).
Proof.
  revert invIndex idx. induction names as [|name0 names IH];
    intros invIndex idx Hnd; simpl.
  - split.
    + intros Hlook. right. split; [apply not_elem_of_nil | done].
    + by intros [(j & ? & _)|[_ ?]].
  - apply NoDup_cons in Hnd as [Hnotin Hnd]. rewrite IH by done. split.
    + intros [(j & Hj & ->)|[Hout Hlook]].
      * left. exists (S j). split; [done | lia].
      * destruct (decide (name0 = name)) as [->|Hne].
        -- rewrite lookup_insert_eq in Hlook. injection Hlook as <-.
           left. exists 0%nat. split; [done | lia].
        -- rewrite lookup_insert_ne in Hlook by done.
           right. split; [|done]. by intros [->|?]%elem_of_cons.
    + intros [(j & Hj & ->)|[Hout Hlook]].
      * destruct j as [|j]; simplify_eq/=.
        -- right. split; [done|].
           rewrite lookup_insert_eq. f_equal. lia.
        -- left. exists j. split; [done | lia].
      * right. apply not_elem_of_cons in Hout as [Hne Hout].
        split; [done|]. by rewrite lookup_insert_ne.
Qed.

Lemma buildIndex_spec names name i :
  NoDup names →
  buildIndex names !! name = Some i ↔ names !! i = Some name.
Proof.
  intros Hnd. unfold buildIndex. rewrite buildIndex_loop_lookup by done. split.
  - intros [(j & Hj & ->)|[_ Hempty]]; [done|]. by rewrite lookup_empty in Hempty.
  - intros Hi. left. by exists i.
Qed.

(** X4: [buildIndex] inverts the header.  For distinct names, the index maps
    a name to [i] exactly when the name stands at position [i]; a name the
    header does not hold has no entry. *)
Theorem buildIndex_lookup names name :
  NoDup names →
  (∀ i, buildIndex names !! name = Some i ↔ names !! i = Some name) ∧
  (name ∉ names → buildIndex names !! name = None).
Proof.
  intros Hnd. split; [intros i; by apply buildIndex_spec|].
  intros Hout. destruct (buildIndex names !! name) as [i|] eqn:Hlook; [|done].
  apply buildIndex_spec in Hlook; [|done].
  exfalso. apply Hout. by eapply list_elem_of_lookup_2.
Qed.

Lemma buildIndex_lookup_witness :
  (∀ i, buildIndex ["col1"; "col2"] !! "col2" = Some i ↔
        ["col1"; "col2"] !! i = Some "col2") ∧
  ("col2" ∉ ["col1"; "col2"] → buildIndex ["col1"; "col2"] !! "col2" = None).
Proof.
  apply (buildIndex_lookup ["col1"; "col2"] "col2").
  apply NoDup_cons. split; [|apply NoDup_singleton].
  intros [?|?%elem_of_nil]%elem_of_cons; done.
Defined.

Lemma record_lookup_spec it :
  NoDup (header it) →
  invertedIndex it = buildIndex (header it) →
  length (current it) = length (header it) →
  (∀ i name,
     header it !! i = Some name →
     ∃ v, current it !! i = Some v ∧
          ByName (Record_ it) name = Some (v, true) ∧
          ByIndex (Record_ it) (Z.of_nat i) = (v, true)) ∧
  (∀ name, name ∉ header it → ByName (Record_ it) name = Some ("", false)) ∧
  (∀ name, ByName (Record_ it) name ≠ None).
Proof.
  intros Hnd Hidx Hlen.
  assert (∀ i name, header it !! i = Some name →
            ∃ v, current it !! i = Some v ∧
                 ByName (Record_ it) name = Some (v, true)) as Hname.
  { intros i name Hi.
    destruct (lookup_lt_is_Some_2 (current it) i) as [v Hv].
    { rewrite Hlen. by eapply lookup_lt_Some. }
    exists v. split; [done|]. unfold ByName. cbn. rewrite Hidx.
    assert (buildIndex (header it) !! name = Some i) as ->
      by by apply buildIndex_spec.
    by rewrite Hv. }
  split; [|split].
  - intros i name Hi. destruct (Hname i name Hi) as (v & Hv & Hby).
    exists v. split; [done|]. split; [done|]. unfold ByIndex. cbn.
    apply lookup_lt_Some in Hv as Hlt.
    rewrite bool_decide_eq_false_2 by lia.
    rewrite bool_decide_eq_false_2 by lia. cbn.
    by rewrite Nat2Z.id, Hv.
  - intros name Hout. unfold ByName. cbn. rewrite Hidx.
    destruct (buildIndex (header it) !! name) as [i|] eqn:Hlook; [|done].
    apply buildIndex_spec in Hlook; [|done].
    exfalso. apply Hout. by eapply list_elem_of_lookup_2.
  - intros name. destruct (decide (name ∈ header it)) as [Hin|Hout].
    + apply list_elem_of_lookup_1 in Hin as [i Hi].
      destruct (Hname i name Hi) as (v & _ & ->). done.
    + unfold ByName. cbn. rewrite Hidx.
      destruct (buildIndex (header it) !! name) as [i|] eqn:Hlook; [|done].
      apply buildIndex_spec in Hlook; [|done].
      exfalso. apply Hout. by eapply list_elem_of_lookup_2.
Qed.

(** X5: lookups in a record.  In a record with as many fields as its
    header, whose names are distinct and indexed by [buildIndex]: [ByName]
    of the name at position [i] and [ByIndex] of [i] both return the field at
    that position; [ByName] of a name the header does not hold returns
    not-found; and [ByName] never indexes out of range. *)
Theorem ByName_agrees_with_ByIndex it :
  NoDup (header it) →
  invertedIndex it = buildIndex (header it) →
  length (current it) = length (header it) →
  (∀ i name,
     header it !! i = Some name →
     ∃ v, current it !! i = Some v ∧
          ByName (Record_ it) name = Some (v, true) ∧
          ByIndex (Record_ it) (Z.of_nat i) = (v, true)) ∧
  (∀ name, name ∉ header it → ByName (Record_ it) name = Some ("", false)) ∧
  (∀ name, ByName (Record_ it) name ≠ None).
Proof. apply record_lookup_spec. Qed.

Lemma ByName_agrees_with_ByIndex_witness :
  ∃ v, ByName (Record_ (set_current samples.it_header ["a2"; "b2"]
                          (samples.src2 16))) "col2" = Some (v, true) ∧
       ByIndex (Record_ (set_current samples.it_header ["a2"; "b2"]
                           (samples.src2 16))) 1 = (v, true).
Proof.
  destruct (ByName_agrees_with_ByIndex
              (set_current samples.it_header ["a2"; "b2"] (samples.src2 16)))
    as (Hpos & _ & _).
  - apply NoDup_cons. split; [|apply NoDup_singleton].
    intros [?|?%elem_of_nil]%elem_of_cons; done.
  - reflexivity.
  - reflexivity.
  - destruct (Hpos 1%nat "col2") as (v & _ & Hname & Hindex); [reflexivity|].
    by exists v.
Defined.

(** ** [validateHeader] and [Decode] *)

Lemma validateHeader_loop_first h names rest err :
  validateHeader_loop h names rest = Some err →
  ∃ j name,
    err = ErrDuplicateEntry name h ∧ rest !! j = Some name ∧
    (name ∈ names ∨ name ∈ take j rest) ∧
    NoDup (take j rest) ∧ ∀ x, x ∈ take j rest → x ∉ names.
Proof.
  revert names. induction rest as [|name rest IH]; intros names; simpl; [done|].
  destruct (decide (name ∈ names)) as [Hin|Hout].
  - intros [= <-]. exists 0%nat, name. simpl.
    split; [done|]. split; [done|]. split; [by left|].
    split; [constructor|]. by intros x ?%elem_of_nil.
  - intros (j & x & -> & Hj & Hseen & Hnd & Hfresh)%IH.
    exists (S j), x. simpl. split; [done|]. split; [done|].
    assert (name ∉ take j rest) as Hnotin.
    { intros Hmem. apply (Hfresh name Hmem).
      apply elem_of_union_l. by apply elem_of_singleton. }
    split; [|split].
    + destruct Hseen as [[->%elem_of_singleton|Hseen]%elem_of_union|Hseen].
      * right. left.
      * by left.
      * right. by right.
    + by apply NoDup_cons.
    + intros y [->|Hy]%elem_of_cons; [done|].
      intros Hyn. apply (Hfresh y Hy). by apply elem_of_union_r.
Qed.

(** X6: [validateHeader] accepts exactly the headers whose names are
    distinct, and otherwise reports the first name that repeats an earlier
    one: the names before it are distinct and it is one of them. *)
Theorem validateHeader_reports_first_duplicate h :
  (validateHeader h = None ↔ NoDup h) ∧
  (∀ err, validateHeader h = Some err →
     ∃ j name,
       err = ErrDuplicateEntry name h ∧ h !! j = Some name ∧
       name ∈ take j h ∧ NoDup (take j h)).
Proof.
  split; [apply validateHeader_None|].
  intros err (j & name & -> & Hj & Hseen & Hnd & _)%validateHeader_loop_first.
  exists j, name. do 2 (split; [done|]). split; [|done].
  destruct Hseen as [Hempty|?]; [|done]. by apply not_elem_of_empty in Hempty.
Qed.

(** X7: what a successful [Decode] has done.  The iterator it returns has a
    header of distinct names, indexed by [buildIndex] and enforced as the
    field count, no error and nothing pending.  With a configured header it
    has read nothing from the stream and that header is the canonical one;
    without, it has taken exactly the first row, which parsed, as the
    header.  The metadata it remembers is the one current at that point. *)
Theorem Decode_success d rc it :
  Decode d rc = inr it →
  NoDup (header it) ∧
  invertedIndex it = buildIndex (header it) ∧
  FieldsPerRecord (csvReader_ it) = Z.of_nat (length (header it)) ∧
  decoderError it = None ∧ hasPending it = false ∧ atStart it = false ∧
  lastSourceMeta it = Current (srcAwareStream it) ∧
  ((d_header d ≠ [] ∧ header it = d_header d ∧ srcAwareStream it = rc) ∨
   (d_header d = [] ∧
    ∃ meta rest,
      feed rc = (RawRecord (header it), meta) :: rest ∧
      srcAwareStream it = {| feed := rest; now := meta; final := final rc |})).
Proof.
  destruct (decide (d_header d = [])) as [Hd|Hd].
  - unfold Decode. rewrite Hd. case_bool_decide; [|done].
    destruct (feed rc) as [|[[h|e] meta] rest] eqn:Hfeed.
    + by rewrite csv_Read_eof.
    + rewrite (csv_Read_first _ h meta rest) by done. cbn.
      destruct (validateHeader h) eqn:Hv; [done|].
      intros [= <-]. cbn. apply validateHeader_None in Hv.
      do 7 (split; [done|]). right. split; [done|]. by exists meta, rest.
    + by rewrite (csv_Read_error _ e meta rest).
  - unfold Decode. case_bool_decide; [by destruct (d_header d)|]. cbn.
    destruct (validateHeader (d_header d)) eqn:Hv; [done|].
    intros [= <-]. cbn. apply validateHeader_None in Hv.
    do 7 (split; [done|]). by left.
Qed.

Lemma Decode_success_witness :
  ∃ it, Decode samples.inferring samples.rc_header_skip = inr it ∧
        NoDup (header it) ∧ atStart it = false.
Proof.
  destruct (Decode samples.inferring samples.rc_header_skip) as [e|it] eqn:Hdec;
    [exfalso; revert Hdec; by vm_compute|].
  destruct (Decode_success _ _ it Hdec) as (Hnd & _ & _ & _ & _ & Hat & _).
  by exists it.
Defined.

(** X8: [isheader] is exact equality with the canonical header: the same
    number of fields and the same string at each position. *)
Theorem isheader_exact it row :
  isheader it row = true ↔
  length row = length (header it) ∧
  ∀ i, (i < length (header it))%nat → row !! i = header it !! i.
Proof.
  rewrite isheader_true. split.
  - by intros ->.
  - intros [Hlen Hall]. apply list_eq. intros i.
    destruct (decide (i < length (header it))%nat) as [Hi|Hi]; [by apply Hall|].
    rewrite !lookup_ge_None_2; [done | lia | lia].
Qed.

(** ** From [Decode] to the records served *)

Lemma Next_times_served n fuel it b it' :
  NoDup (header it) → invertedIndex it = buildIndex (header it) →
  FieldsPerRecord (csvReader_ it) = Z.of_nat (length (header it)) →
  hasPending it = false → length (header it) ≠ 0%nat →
  Next_times n fuel it = Some (b, it') →
  header it' = header it ∧ invertedIndex it' = invertedIndex it ∧
  (b = true → length (current it') = length (header it)).
Proof.
  revert it. induction n as [|n IH]; intros it Hnd Hidx Hf Hp Hh.
  - simpl. destruct (decoderError it) as [e|] eqn:Herr.
    + rewrite (Next_sticky _ _ e) by done. by intros [= <- <-].
    + assert (live it) as Hlive by done.
      rewrite Next_live by done.
      intros (? & ? & _ & _ & _ & Hserved)%Next_loop_served; [|done].
      do 2 (split; [done|]). intros ->. by destruct Hserved as (_ & ? & _).
  - simpl. destruct (decoderError it) as [e|] eqn:Herr.
    + rewrite (Next_sticky _ _ e) by done. by apply IH.
    + assert (live it) as Hlive by done.
      rewrite Next_live by done.
      destruct (Next_loop fuel it) as [[b1 it1]|] eqn:Hloop; [|done].
      apply Next_loop_served in Hloop as (Hh1 & Hi1 & Hf1 & _ & Hp1 & _); [|done].
      intros (? & ? & Hlen)%IH; [|congruence..].
      split; [congruence|]. split; [congruence|].
      intros ->. rewrite Hlen by done. congruence.
Qed.

(** X9: every record served after a successful [Decode] can be read by name
    and by position.  Whatever the number of calls of [Next] before it, a
    record [Next] serves carries the header [Decode] established and one
    field per name; [ByName] of the name at position [i] and [ByIndex] of [i]
    return that same field. *)
Theorem served_record_lookup d rc it0 n fuel it :
  Decode d rc = inr it0 → header it0 ≠ [] →
  Next_times n fuel it0 = Some (true, it) →
  Names (Record_ it) = header it0 ∧
  Len (Record_ it) = Z.of_nat (length (header it0)) ∧
  ∀ i name,
    header it0 !! i = Some name →
    ∃ v, ByName (Record_ it) name = Some (v, true) ∧
         ByIndex (Record_ it) (Z.of_nat i) = (v, true).
Proof.
  intros Hdec Hne Htimes.
  assert (NoDup (header it0) ∧ invertedIndex it0 = buildIndex (header it0) ∧
          FieldsPerRecord (csvReader_ it0) = Z.of_nat (length (header it0)) ∧
          hasPending it0 = false) as (Hnd & Hidx & Hf & Hp).
  { unfold Decode in Hdec.
    destruct (if bool_decide (length (d_header d) = 0) then _ else _)
      as [?|[h rd]] eqn:Hinf; [done|].
    destruct (validateHeader h) eqn:Hv; [done|].
    injection Hdec as <-. cbn. by apply validateHeader_None in Hv. }
  apply Next_times_served in Htimes as (Hh & Hi & Hlen);
    [|done..|by destruct (header it0)].
  specialize (Hlen eq_refl).
  split; [done|]. split; [unfold Len; cbn; by rewrite Hlen|].
  intros i name Hname.
  destruct (record_lookup_spec it) as (Hpos & _); [congruence..|].
  destruct (Hpos i name) as (v & _ & ? & ?); [congruence|]. by exists v.
Qed.

Lemma served_record_lookup_witness :
  ∃ it v,
    Next_times 1 3 (new_iterator 44 ["col1"; "col2"]
                      (srcAwareStream samples.it_mismatch)) = Some (true, it) ∧
    ByName (Record_ it) "col2" = Some (v, true) ∧
    ByIndex (Record_ it) 1 = (v, true).
Proof.
  pose (d := {| comma := 44; d_header := ["col1"; "col2"] |}).
  pose (rc := srcAwareStream samples.it_mismatch).
  assert (NoDup ["col1"; "col2"]) as Hnd.
  { apply NoDup_cons. split; [|apply NoDup_singleton].
    intros [?|?%elem_of_nil]%elem_of_cons; done. }
  pose proof (Decode_explicit d rc ltac:(done) Hnd) as Hdec.
  destruct (Next_times 1 3 (new_iterator (comma d) (d_header d) rc))
    as [[[|] it]|] eqn:Htimes; [|exfalso; revert Htimes; by vm_compute..].
  destruct (served_record_lookup d rc _ 1 3 it Hdec ltac:(done) Htimes)
    as (_ & _ & Hlook).
  destruct (Hlook 1%nat "col2" eq_refl) as (v & ? & ?).
  by exists it, v.
Defined.

(** X10: a header row in the middle of a source that began with data.  The
    pushback path leaves the last observed metadata untouched, so after the
    first row of a new source has been served as data, the next row of that
    source still counts as a source start: when it equals the canonical
    header it is dropped, and the call of [Next] goes on with what follows. *)
Theorem header_row_after_data_row_is_dropped it row meta meta2 rest :
  live it →
  feed (srcAwareStream it) =
    (RawRecord row, meta) :: (RawRecord (header it), meta2) :: rest →
  length row = length (header it) → row ≠ header it →
  Name meta ≠ Name (lastSourceMeta it) → Name meta2 = Name meta →
  ∃ it1 it2,
    (∀ fuel, (2 ≤ fuel)%nat → Next fuel it = Some (true, it1)) ∧
    se_current (Record_ it1) = row ∧
    lastSourceMeta it1 = lastSourceMeta it ∧
    Next_body it1 = Continue it2 ∧
    feed (srcAwareStream it2) = rest ∧
    current it2 = row ∧ hasPending it2 = false ∧
    ∀ fuel, Next (S fuel) it1 = Next fuel it2.
Proof.
  intros Hlive Hfeed Hlen Hne Hname Hsame.
  assert (isSourceStart it meta = true) as Hss
    by by apply isSourceStart_other_name.
  pose proof (Next_body_pushback it row meta _ Hlive Hfeed Hlen Hne
                (or_intror Hss)) as Hfirst.
  set (itp := set_atStart _ false) in Hfirst.
  pose proof (Next_body_pending itp eq_refl) as Hsecond.
  set (it1 := set_hasPending _ false) in Hsecond.
  assert (live it1) as Hlive1 by (by destruct Hlive).
  assert (isSourceStart it1 meta2 = true) as Hss2.
  { apply isSourceStart_other_name. cbn. congruence. }
  pose proof (Next_body_header it1 meta2 rest Hlive1 eq_refl (or_intror Hss2))
    as Hthird.
  set (it2 := set_lastSourceMeta _ meta2) in Hthird.
  exists it1, it2. split; [|split; [done|split; [done|split; [done|]]]].
  - intros fuel Hfuel. rewrite Next_live by done.
    apply (Next_loop_mono 2); [|done].
    by rewrite Next_loop_S, Hfirst, Next_loop_S, Hsecond.
  - do 3 (split; [done|]). intros fuel.
    assert (live it2) by (by destruct Hlive).
    by rewrite !Next_live, Next_loop_S, Hthird by done.
Qed.

Lemma header_row_after_data_row_is_dropped_witness :
  ∃ it1 it2,
    Next 2 samples_more.it_late_header = Some (true, it1) ∧
    se_current (Record_ it1) = ["x"; "y"] ∧
    Next_body it1 = Continue it2 ∧
    feed (srcAwareStream it2) = [(RawRecord ["a2"; "b2"], samples.src2 10)].
Proof.
  destruct (header_row_after_data_row_is_dropped samples_more.it_late_header
              ["x"; "y"] (samples.src2 10) (samples.src2 10)
              [(RawRecord ["a2"; "b2"], samples.src2 10)])
    as (it1 & it2 & Hnext & Hrow & _ & Hbody & Hfeed & _).
  - split; [reflexivity | simpl; lia | reflexivity | reflexivity].
  - reflexivity.
  - reflexivity.
  - discriminate.
  - discriminate.
  - reflexivity.
  - exists it1, it2. split; [apply Hnext; lia | done].
Defined.

Lemma validateHeader_reports_first_duplicate_witness :
  ∃ j name,
    ErrDuplicateEntry "a" ["a"; "b"; "a"] = ErrDuplicateEntry name ["a"; "b"; "a"] ∧
    ["a"; "b"; "a"] !! j = Some name ∧
    name ∈ take j ["a"; "b"; "a"] ∧ NoDup (take j ["a"; "b"; "a"]).
Proof.
  destruct (validateHeader_reports_first_duplicate ["a"; "b"; "a"]) as [_ Hdup].
  apply Hdup. by vm_compute.
Defined.

Lemma isheader_exact_witness :
  isheader samples.it_header ["col1"; "col2"] = true.
Proof.
  apply (isheader_exact samples.it_header ["col1"; "col2"]).
  split; [reflexivity|]. intros i Hi. reflexivity.
Defined.

End decoder_more.

(** * Further properties of the multiplexer *)

Section multiplexer_more.

Import connector trace_views in_memory_source.

Implicit Types (evs : list event) (ops : list opener.Opener)
  (w : patience) (meta m : SrcMeta).

(** ** Readers are opened one at a time and always closed *)

Lemma readers_app held evs1 evs2 :
  readers held (evs1 ++ evs2) =
    match readers held evs1 with
    | Some held' => readers held' evs2
    | None => None
    end.
Proof.
  revert held. induction evs1 as [|ev evs1 IH]; intros held; [done|].
  destruct ev; simpl; try done;
    repeat case_decide; try done; destruct held; done.
Qed.

Lemma streamLoop_readers k name rc meta w evs exit :
  streamLoop k name rc meta w = (evs, exit) →
  readers (Some k) evs =
    Some (match exit with Break _ => Some k | Return => None end).
Proof.
  revert meta w evs exit.
  induction rc as [|[bs rerr] rc IH]; intros meta w evs exit; simpl.
  - by intros [= <- <-].
  - case_bool_decide as Hn.
    + destruct (pw_Write w) as [werr|w'].
      * intros [= <- <-]. simpl. by rewrite !decide_True.
      * destruct rerr as [e|].
        -- destruct (decide (e = EOF)); intros [= <- <-]; simpl;
             by rewrite !decide_True.
        -- destruct (streamLoop k name rc (advance meta (length bs)) w')
             as [evs' exit'] eqn:Hrec.
           intros [= <- <-]. apply IH in Hrec. simpl. by rewrite decide_True.
    + destruct rerr as [e|].
      * destruct (decide (e = EOF)); intros [= <- <-]; simpl;
          by rewrite ?decide_True.
      * destruct (streamLoop k name rc meta w) as [evs' exit'] eqn:Hrec.
        intros [= <- <-]. by apply IH in Hrec.
Qed.

Lemma muxLoop_readers k ops w : readers None (muxLoop k ops w) = Some None.
Proof.
  revert k w. induction ops as [|op ops IH]; intros k w; simpl; [done|].
  destruct (opener.Open op) as [err|rc]; [done|].
  destruct (streamLoop k (opener.Name op) rc _ w) as [evs exit] eqn:Hloop.
  apply streamLoop_readers in Hloop. simpl. rewrite readers_app, Hloop.
  destruct exit as [w'|]; [|done]. simpl. by rewrite decide_True.
Qed.

(** X11: one reader at a time.  In every run of the producer, whatever the
    sources do and whenever the consumer closes the pipe: a source is opened
    only while no reader is open, bytes are written only from the reader
    that is open, only that reader is closed, and at the end of the run no
    reader is left open. *)
Theorem one_reader_at_a_time ops w :
  readers None (producer ops w) = Some None.
Proof.
  unfold producer. by rewrite readers_app, muxLoop_readers.
Qed.

(** ** Nothing follows an error *)

Lemma terminal_None_no_close evs e :
  terminal evs = None → EvCloseWithError e ∉ evs.
Proof.
  induction evs as [|ev evs IH]; [by intros _ ?%elem_of_nil|].
  intros Ht [<-|Hin]%elem_of_cons; [done|].
  destruct ev; simpl in Ht; try done; by apply IH.
Qed.

Lemma streamLoop_close_last k name rc meta w evs exit :
  streamLoop k name rc meta w = (evs, exit) →
  match exit with
  | Break _ => terminal evs = None
  | Return => ∃ evs0 e, evs = evs0 ++ [EvCloseWithError e] ∧ terminal evs0 = None
  end.
Proof.
  revert meta w evs exit.
  induction rc as [|[bs rerr] rc IH]; intros meta w evs exit; simpl.
  - by intros [= <- <-].
  - case_bool_decide as Hn.
    + destruct (pw_Write w) as [werr|w'].
      * intros [= <- <-]. by exists [EvWriteFailed k werr; EvSrcClose k], werr.
      * destruct rerr as [e|].
        -- destruct (decide (e = EOF)); intros [= <- <-]; [done|].
           by eexists [_; _; _], _.
        -- destruct (streamLoop k name rc (advance meta (length bs)) w')
             as [evs' exit'] eqn:Hrec.
           intros [= <- <-]. apply IH in Hrec. destruct exit'; [done|].
           destruct Hrec as (evs0 & e & -> & Ht). by eexists (_ :: _ :: evs0), e.
    + destruct rerr as [e|].
      * destruct (decide (e = EOF)); intros [= <- <-]; [done|].
        by eexists [_], _.
      * destruct (streamLoop k name rc meta w) as [evs' exit'] eqn:Hrec.
        intros [= <- <-]. by apply IH in Hrec.
Qed.

Lemma muxLoop_close_last k ops w :
  terminal (muxLoop k ops w) = None ∨
  ∃ evs0 e, muxLoop k ops w = evs0 ++ [EvCloseWithError e] ∧ terminal evs0 = None.
Proof.
  revert k w. induction ops as [|op ops IH]; intros k w; simpl; [by left|].
  destruct (opener.Open op) as [err|rc].
  - right. by eexists [_], _.
  - destruct (streamLoop k (opener.Name op) rc _ w) as [evs exit] eqn:Hloop.
    apply streamLoop_close_last in Hloop. destruct exit as [w'|].
    + destruct (IH (S k) w') as [Ht|(evs0 & e & Heq & Ht)].
      * left. simpl. by rewrite terminal_app, Hloop.
      * right. exists (EvOpened k :: EvStore (boundary_of op)
                         :: EvBoundary k (boundary_of op)
                         :: evs ++ EvSrcClose k :: evs0), e.
        split; [|simpl; by rewrite terminal_app, Hloop].
        rewrite Heq. simpl. by rewrite <- app_assoc.
    + right. destruct Hloop as (evs0 & e & -> & Ht).
      exists (EvOpened k :: EvStore (boundary_of op)
                :: EvBoundary k (boundary_of op) :: evs0), e.
      split; [by rewrite app_nil_r|done].
Qed.

(** X12: nothing follows an error.  Once the producer has closed the pipe
    with an error, be it a failed open, a failed read or a failed write, it
    opens, reads, writes, stores and publishes nothing more: only the two
    deferred calls follow. *)
Theorem producer_stops_at_first_error ops w pre e post :
  producer ops w = pre ++ EvCloseWithError e :: post →
  post = [EvPipeClose; EvDrainAndClose] ∧ terminal pre = None.
Proof.
  unfold producer.
  destruct (muxLoop_close_last 0 ops w) as [Ht|(evs0 & e' & -> & Ht)].
  - intros [[l Heq]|(l & -> & Heq)]%app_eq_middle.
    + exfalso. apply (terminal_None_no_close _ e Ht). rewrite Heq.
      apply elem_of_app. right. left.
    + destruct l as [|? [|? [|? ?]]]; done.
  - rewrite <- app_assoc. intros [[l Heq]|(l & -> & Heq)]%app_eq_middle.
    + exfalso. apply (terminal_None_no_close _ e Ht). rewrite Heq.
      apply elem_of_app. right. left.
    + destruct l as [|ev l]; simpl in Heq.
      * injection Heq as _ <-. by rewrite app_nil_r.
      * destruct l as [|? [|? [|? ?]]]; done.
Qed.

Lemma producer_stops_at_first_error_witness :
  [EvPipeClose; EvDrainAndClose] = [EvPipeClose; EvDrainAndClose] ∧
  terminal [EvOpenFailed 0 (ErrNew "boom")] = None.
Proof.
  apply (producer_stops_at_first_error [samples.op_bad; samples.fakeOpener "b" "x"]
           None [EvOpenFailed 0 (ErrNew "boom")]
           (Errorf "open bad" (ErrNew "boom")) [EvPipeClose; EvDrainAndClose]).
  reflexivity.
Defined.

(** ** [Current] and the boundary events *)

(** X13: [Current] is stored before the boundary is published.  Each boundary
    event comes right after the open of its source and the store of the same
    metadata, so by the time a boundary can be received [Current()] already
    reports that source, at offset 0. *)
Theorem boundary_follows_store ops w pre k meta post :
  producer ops w = pre ++ EvBoundary k meta :: post →
  (∃ pre', pre = pre' ++ [EvOpened k; EvStore meta]) ∧
  Current (run pre muxReader_new) = meta ∧ ByteOffset meta = 0%Z.
Proof.
  intros Heq.
  enough (∃ pre', pre = pre' ++ [EvOpened k; EvStore meta] ∧ ByteOffset meta = 0%Z)
    as (pre' & -> & Hoff).
  { split; [by exists pre'|]. split; [|done]. by rewrite run_app. }
  unfold producer in Heq.
  apply app_eq_middle in Heq as [[l Heq]|(l & -> & Heq)];
    [|destruct l as [|? [|? [|? ?]]]; done].
  clear post. revert pre l Heq. generalize 0%nat as k0. revert w.
  induction ops as [|op ops IH]; intros w k0 pre l; simpl.
  - by destruct pre.
  - destruct (opener.Open op) as [err|rc].
    + destruct pre as [|? [|? [|? ?]]]; done.
    + destruct (streamLoop k0 (opener.Name op) rc _ w) as [evs exit] eqn:Hloop.
      apply streamLoop_events in Hloop. rewrite Forall_forall in Hloop.
      change (EvOpened k0 :: ?a :: ?b :: evs ++ ?t)
        with ([EvOpened k0; a; b] ++ (evs ++ t)).
      intros [[l1 Heq]|(l1 & -> & Heq)]%app_eq_middle.
      * destruct pre as [|? [|? [|? [|? ?]]]]; simplify_eq/=. by exists [].
      * apply app_eq_middle in Heq as [[l2 Heq]|(l2 & -> & Heq)].
        { exfalso. apply (Hloop (EvBoundary k meta)). rewrite Heq.
          apply elem_of_app. right. left. }
        destruct exit as [w'|]; [|by destruct l2].
        destruct l2 as [|ev l2]; [done|]. injection Heq as <- Heq.
        apply IH in Heq as (pre' & -> & Hoff).
        eexists (_ :: _ :: _ :: evs ++ EvSrcClose k0 :: pre'). split; [|done].
        simpl. by rewrite <- !app_assoc.
Qed.

Lemma boundary_follows_store_witness :
  Current (run [EvOpened 0; EvStore {| Name := "a"; ByteOffset := 0 |}]
             muxReader_new) = {| Name := "a"; ByteOffset := 0 |}.
Proof.
  apply (boundary_follows_store samples.ops_hello None
           [EvOpened 0; EvStore {| Name := "a"; ByteOffset := 0 |}] 0
           {| Name := "a"; ByteOffset := 0 |}
           (drop 3 (producer samples.ops_hello None))).
  reflexivity.
Defined.

(** ** The published offset counts the bytes forwarded *)

Lemma written_by_app k evs1 evs2 :
  written_by k (evs1 ++ evs2) = written_by k evs1 ++ written_by k evs2.
Proof. unfold written_by. by rewrite omap_app, concat_app. Qed.

Lemma written_by_stream k k0 evs :
  Forall (stream_event k0) evs →
  written_by k evs = if decide (k0 = k) then written evs else [].
Proof.
  intros Hevs. unfold written_by, written, written_chunks.
  destruct (decide (k0 = k)) as [->|Hne].
  - f_equal. induction Hevs as [|ev evs Hev _ IH]; [done|].
    destruct ev; simpl in *; try done. subst.
    rewrite decide_True by done. simpl. by f_equal.
  - induction Hevs as [|ev evs Hev _ IH]; [done|].
    destruct ev; simpl in *; try done. subst.
    by rewrite decide_False.
Qed.

Lemma streamLoop_stores k name rc meta w evs exit pre m post :
  streamLoop k name rc meta w = (evs, exit) →
  evs = pre ++ EvStore m :: post →
  m = {| Name := Name meta;
         ByteOffset := int64 (ByteOffset meta + Z.of_nat (length (written pre))) |}.
Proof.
  revert meta w evs exit pre.
  induction rc as [|[bs rerr] rc IH]; intros meta w evs exit pre; simpl.
  - intros [= <- <-] Heq. by destruct pre.
  - case_bool_decide as Hn.
    + destruct (pw_Write w) as [werr|w'].
      * intros [= <- <-] Heq. destruct pre as [|? [|? [|? [|? ?]]]]; done.
      * assert (∀ tl,
                  (∀ pre2, tl = pre2 ++ EvStore m :: post →
                     m = {| Name := Name (advance meta (length bs));
                            ByteOffset :=
                              int64 (ByteOffset (advance meta (length bs)) +
                                     Z.of_nat (length (written pre2))) |}) →
                  [EvWrite k bs; EvStore (advance meta (length bs))] ++ tl =
                    pre ++ EvStore m :: post →
                  m = {| Name := Name meta;
                         ByteOffset :=
                           int64 (ByteOffset meta +
                                  Z.of_nat (length (written pre))) |})
          as Hhead.
        { intros tl Htl Heq.
          destruct pre as [|p0 [|p1 pre2]]; simplify_eq/=.
          - unfold advance, written. simpl. by rewrite app_nil_r.
          - rewrite (Htl pre2 eq_refl). unfold advance. simpl. f_equal.
            rewrite int64_add. f_equal.
            change (written (EvWrite k bs :: ?a :: pre2)) with (bs ++ written pre2).
            rewrite length_app. lia. }
        destruct rerr as [e|].
        -- destruct (decide (e = EOF)); intros [= <- <-] Heq.
           ++ apply (Hhead []); [|by rewrite app_nil_r].
              intros pre2 ?. by destruct pre2.
           ++ apply (Hhead [EvSrcClose k;
                            EvCloseWithError (Errorf ("read " +:+ name) e)]);
                [|done].
              intros pre2 ?. destruct pre2 as [|? [|? [|? ?]]]; done.
        -- destruct (streamLoop k name rc (advance meta (length bs)) w')
             as [evs' exit'] eqn:Hrec.
           intros [= <- <-] Heq. apply (Hhead evs'); [|done].
           intros pre2 Heq2. by apply (IH _ _ _ _ _ Hrec).
    + destruct rerr as [e|].
      * destruct (decide (e = EOF)); intros [= <- <-] Heq.
        -- by destruct pre.
        -- destruct pre as [|? [|? [|? ?]]]; done.
      * destruct (streamLoop k name rc meta w) as [evs' exit'] eqn:Hrec.
        intros [= <- <-] Heq. by apply (IH _ _ _ _ _ Hrec).
Qed.

Lemma muxLoop_stores k0 ops w pre m post :
  muxLoop k0 ops w = pre ++ EvStore m :: post →
  ∃ k op, (k0 ≤ k)%nat ∧ ops !! (k - k0)%nat = Some op ∧
          Name m = opener.Name op ∧
          ByteOffset m = int64 (Z.of_nat (length (written_by k pre))).
Proof.
  revert k0 w pre. induction ops as [|op ops IH]; intros k0 w pre; simpl.
  - by destruct pre.
  - destruct (opener.Open op) as [err|rc].
    + destruct pre as [|? [|? [|? ?]]]; done.
    + destruct (streamLoop k0 (opener.Name op) rc _ w) as [evs exit] eqn:Hloop.
      pose proof (streamLoop_events _ _ _ _ _ _ _ Hloop) as Hevs.
      change (EvOpened k0 :: ?a :: ?b :: evs ++ ?t)
        with ([EvOpened k0; a; b] ++ (evs ++ t)).
      intros [[l1 Heq]|(l1 & -> & Heq)]%app_eq_middle.
      * destruct pre as [|? [|? [|? [|? ?]]]]; simplify_eq/=.
        exists k0, op. rewrite Nat.sub_diag. by repeat split.
      * apply app_eq_middle in Heq as [[l2 Heq]|(l2 & -> & Heq)].
        -- rewrite (streamLoop_stores _ _ _ _ _ _ _ _ _ _ Hloop Heq).
           exists k0, op. rewrite Nat.sub_diag. split; [lia|].
           split; [done|]. split; [done|].
           assert (Forall (stream_event k0) l1) as Hl1.
           { rewrite Heq in Hevs. by apply Forall_app in Hevs as [? _]. }
           rewrite written_by_app.
           rewrite (written_by_stream k0 k0 l1 Hl1), decide_True by done.
           done.
        -- destruct exit as [w'|]; [|by destruct l2].
           destruct l2 as [|ev l2]; [done|]. injection Heq as <- Heq.
           apply IH in Heq as (k & op' & Hle & Hlook & Hname & Hoff).
           exists k, op'. split; [lia|]. split.
           { replace (k - k0)%nat with (S (k - S k0)) by lia. done. }
           split; [done|]. rewrite Hoff.
           rewrite (written_by_app k [_; _; _]), (written_by_app k evs).
           rewrite (written_by_stream k k0 evs Hevs), decide_False by lia.
           done.
Qed.

(** X14: the published offset counts the bytes forwarded.  Every metadata the
    producer stores names a source of the list and carries, as a 64-bit
    integer, the number of bytes of that source written to the pipe so far;
    below 2^63 bytes this is the count itself. *)
Theorem stored_offset_counts_bytes ops w pre m post :
  producer ops w = pre ++ EvStore m :: post →
  ∃ k op,
    ops !! k = Some op ∧ Name m = opener.Name op ∧
    ByteOffset m = int64 (Z.of_nat (length (written_by k pre))) ∧
    ((Z.of_nat (length (written_by k pre)) < 2 ^ 63)%Z →
     ByteOffset m = Z.of_nat (length (written_by k pre))).
Proof.
  unfold producer.
  intros [[l Heq]|(l & -> & Heq)]%app_eq_middle;
    [|destruct l as [|? [|? [|? ?]]]; done].
  apply muxLoop_stores in Heq as (k & op & _ & Hlook & Hname & Hoff).
  rewrite Nat.sub_0_r in Hlook. exists k, op. do 3 (split; [done|]).
  intros Hsmall. rewrite Hoff. apply int64_small. lia.
Qed.

Lemma stored_offset_counts_bytes_witness :
  ∃ k op,
    samples.ops_hello !! k = Some op ∧ "b" = opener.Name op ∧
    5%Z = int64 (Z.of_nat (length (written_by k
                              (take 10 (producer samples.ops_hello None))))).
Proof.
  destruct (stored_offset_counts_bytes samples.ops_hello None
              (take 10 (producer samples.ops_hello None))
              {| Name := "b"; ByteOffset := 5 |}
              (drop 11 (producer samples.ops_hello None)))
    as (k & op & Hlook & Hname & Hoff & _); [reflexivity|].
  by exists k, op.
Defined.

(** ** The merged stream in general *)

Lemma muxLoop_prefix k ops :
  ∃ j, (j ≤ length ops)%nat ∧
       written (muxLoop k ops None) = flat_map source_payload (take j ops) ∧
       (terminal (muxLoop k ops None) = None ↔
        Forall (fun op => source_clean op = true) ops) ∧
       (terminal (muxLoop k ops None) = None ∨
        ∃ msg cause, terminal (muxLoop k ops None) = Some (Errorf msg cause)).
Proof.
  revert k. induction ops as [|op ops IH]; intros k.
  - exists 0%nat. simpl. split; [lia|]. split; [done|]. split; [|by left].
    split; [constructor | done].
  - simpl. destruct (opener.Open op) as [err|rc] eqn:Hopen.
    + exists 0%nat. split; [lia|]. split; [done|]. split; [|right; by eexists _, _].
      split; [done|]. intros [Hop _]%Forall_cons.
      unfold source_clean in Hop. by rewrite Hopen in Hop.
    + destruct (streamLoop_None k (opener.Name op) rc (boundary_of op))
        as (evs & Hloop & Hw & Ht).
      unfold boundary_of in Hloop. rewrite Hloop.
      assert (source_payload op = payload rc) as Hpay
        by (unfold source_payload; by rewrite Hopen).
      assert (source_clean op = true ↔ read_error rc = EOF) as Hclean.
      { unfold source_clean. rewrite Hopen. apply reads_clean_read_error. }
      change (written (?a :: ?b :: ?c :: ?l)) with (written l).
      change (terminal (?a :: EvStore ?b :: EvBoundary ?c ?d :: ?l))
        with (terminal l).
      rewrite written_app, terminal_app, Hw, Ht.
      destruct (decide (read_error rc = EOF)) as [Herr|Herr].
      * destruct (IH (S k)) as (j & Hj & Hwj & Htj & Hshape).
        exists (S j). split; [simpl; lia|]. split; [|split; [|done]].
        -- change (written (EvSrcClose k :: ?l)) with (written l).
           simpl. by rewrite Hwj, Hpay.
        -- change (terminal (EvSrcClose k :: ?l)) with (terminal l).
           rewrite Htj, Forall_cons. split; [intros ?; split; [by apply Hclean|done]|].
           by intros [_ ?].
      * exists 1%nat. split; [simpl; lia|]. split; [|split].
        -- simpl. destruct ops; simpl; by rewrite !app_nil_r, Hpay.
        -- split; [done|]. intros [Hop _]%Forall_cons. by apply Hclean in Hop.
        -- right. by eexists _, _.
Qed.

(** X15: the merged stream is always the payloads of a prefix of the sources.
    Whatever the sources do, a consumer that reads to the end obtains the
    concatenation of the payloads of the first [j] sources, for some [j],
    followed by one final error; that error is [io.EOF] exactly when every
    source opened and read without error. *)
Theorem merged_stream_is_a_prefix ops n :
  (0 < n)%nat →
  ∃ j e,
    (j ≤ length ops)%nat ∧
    (∀ fuel, (reads_needed (NewMuxReader ops None) ≤ fuel)%nat →
       readToEnd fuel n (NewMuxReader ops None) =
         Some (flat_map source_payload (take j ops), e)) ∧
    (e = EOF ↔ Forall (fun op => source_clean op = true) ops).
Proof.
  intros Hn. destruct (muxLoop_prefix 0 ops) as (j & Hj & Hw & Ht & Hshape).
  exists j, (default EOF (terminal (muxLoop 0 ops None))).
  split; [done|]. split.
  - intros fuel Hfuel. rewrite NewMuxReader_readToEnd by done. by rewrite Hw.
  - rewrite <- Ht. destruct Hshape as [->|(msg & cause & ->)]; done.
Qed.

Lemma merged_stream_is_a_prefix_witness :
  ∃ j e,
    (j ≤ 2)%nat ∧
    readToEnd 13 4 (NewMuxReader [samples.op_partial; samples.fakeOpener "b" "x"]
                      None) =
      Some (flat_map source_payload
              (take j [samples.op_partial; samples.fakeOpener "b" "x"]), e) ∧
    (e = EOF ↔
     Forall (fun op => source_clean op = true)
       [samples.op_partial; samples.fakeOpener "b" "x"]).
Proof.
  destruct (merged_stream_is_a_prefix
              [samples.op_partial; samples.fakeOpener "b" "x"] 4)
    as (j & e & Hj & Hread & He); [lia|].
  exists j, e. split; [done|]. split; [|done].
  apply Hread. vm_compute. lia.
Defined.

(** ** A consumer that closes the pipe *)

Lemma terminal_None_no_fail evs k name rc meta exit :
  streamLoop k name rc meta None = (evs, exit) →
  ∀ j e, EvWriteFailed j e ∉ evs.
Proof.
  revert meta evs exit.
  induction rc as [|[bs rerr] rc IH]; intros meta evs exit; simpl.
  - intros [= <- <-] j e. apply not_elem_of_nil.
  - case_bool_decide as Hn.
    + destruct rerr as [e0|].
      * destruct (decide (e0 = EOF)) as [Heof|Hneof]; intros [= <- <-] j e Hin;
          repeat (apply elem_of_cons in Hin as [?|Hin]; [done|]);
          by apply elem_of_nil in Hin.
      * destruct (streamLoop k name rc (advance meta (length bs)) None)
          as [evs' exit'] eqn:Hrec.
        intros [= <- <-] j e Hin.
        repeat (apply elem_of_cons in Hin as [?|Hin]; [done|]).
        by apply (IH _ _ _ Hrec j e).
    + destruct rerr as [e0|].
      * destruct (decide (e0 = EOF)) as [Heof|Hneof]; intros [= <- <-] j e Hin;
          repeat (apply elem_of_cons in Hin as [?|Hin]; [done|]);
          by apply elem_of_nil in Hin.
      * destruct (streamLoop k name rc meta None) as [evs' exit'] eqn:Hrec.
        intros [= <- <-]. by apply (IH _ _ _ Hrec).
Qed.

Lemma streamLoop_patience k name rc meta n evs exit :
  streamLoop k name rc meta (Some n) = (evs, exit) →
  (length (written_chunks evs) ≤ n)%nat ∧
  match exit with
  | Break w' =>
      w' = Some (n - length (written_chunks evs))%nat ∧
      ∀ j e, EvWriteFailed j e ∉ evs
  | Return =>
      ∀ j e, EvWriteFailed j e ∈ evs →
        e = ErrClosedPipe ∧ length (written_chunks evs) = n ∧
        terminal evs = Some ErrClosedPipe
  end.
Proof.
  revert meta n evs exit.
  induction rc as [|[bs rerr] rc IH]; intros meta n evs exit; simpl.
  - intros [= <- <-]. simpl. split; [lia|]. split; [f_equal; lia|].
    by intros j e ?%elem_of_nil.
  - assert (∀ (l : list event) j e,
              EvWriteFailed j e ∉ EvWrite k bs :: EvStore (advance meta (length bs)) :: l
              ↔ EvWriteFailed j e ∉ l) as Hskip.
    { intros l j e. split.
      - intros Hno Hin. apply Hno. by do 2 right.
      - intros Hno [?|[?|?]%elem_of_cons]%elem_of_cons; done. }
    case_bool_decide as Hn.
    + destruct n as [|n]; simpl.
      * intros [= <- <-]. simpl. split; [done|].
        intros j e [[= _ <-]|Hin]%elem_of_cons; [done|].
        apply elem_of_cons in Hin as [?|Hin]; [done|].
        apply elem_of_cons in Hin as [?|Hin]; [done|]. by apply elem_of_nil in Hin.
      * destruct rerr as [e|].
        -- destruct (decide (e = EOF)); intros [= <- <-]; simpl.
           ++ split; [lia|]. split; [f_equal; lia|].
              intros j e' [?|[?|?%elem_of_nil]%elem_of_cons]%elem_of_cons; done.
           ++ split; [lia|]. intros j e' Hin. exfalso.
              repeat (apply elem_of_cons in Hin as [?|Hin]; [done|]).
              by apply elem_of_nil in Hin.
        -- destruct (streamLoop k name rc (advance meta (length bs)) (Some n))
             as [evs' exit'] eqn:Hrec.
           intros [= <- <-]. apply IH in Hrec as [Hle Hexit]. simpl.
           split; [lia|]. destruct exit' as [w'|].
           ++ destruct Hexit as [-> Hno]. split; [f_equal; lia|].
              intros j e. by apply Hskip.
           ++ intros j e Hin.
              apply elem_of_cons in Hin as [?|Hin]; [done|].
              apply elem_of_cons in Hin as [?|Hin]; [done|].
              destruct (Hexit j e Hin) as (-> & <- & ->). done.
    + destruct rerr as [e|].
      * destruct (decide (e = EOF)); intros [= <- <-]; simpl.
        -- split; [lia|]. split; [f_equal; lia|]. by intros j e' ?%elem_of_nil.
        -- split; [lia|]. intros j e' Hin. exfalso.
           repeat (apply elem_of_cons in Hin as [?|Hin]; [done|]).
           by apply elem_of_nil in Hin.
      * destruct (streamLoop k name rc meta (Some n)) as [evs' exit'] eqn:Hrec.
        intros [= <- <-]. by apply IH in Hrec.
Qed.

Lemma muxLoop_patience k ops n :
  (length (written_chunks (muxLoop k ops (Some n))) ≤ n)%nat ∧
  ∀ j e, EvWriteFailed j e ∈ muxLoop k ops (Some n) →
    e = ErrClosedPipe ∧ length (written_chunks (muxLoop k ops (Some n))) = n ∧
    terminal (muxLoop k ops (Some n)) = Some ErrClosedPipe.
Proof.
  revert k n. induction ops as [|op ops IH]; intros k n; simpl.
  - split; [lia|]. by intros j e ?%elem_of_nil.
  - destruct (opener.Open op) as [err|rc].
    + split; [simpl; lia|].
      intros j e [?|[?|?%elem_of_nil]%elem_of_cons]%elem_of_cons; done.
    + destruct (streamLoop k (opener.Name op) rc _ (Some n)) as [evs exit] eqn:Hloop.
      pose proof (streamLoop_close_last _ _ _ _ _ _ _ Hloop) as Hclose.
      apply streamLoop_patience in Hloop as [Hle Hexit].
      change (written_chunks (?a :: ?b :: ?c :: ?l)) with (written_chunks l).
      change (terminal (?a :: EvStore ?b :: EvBoundary ?c ?d :: ?l))
        with (terminal l).
      rewrite written_chunks_app, length_app, terminal_app.
      destruct exit as [w'|].
      * destruct Hexit as [-> Hno].
        destruct (IH (S k) (n - length (written_chunks evs))%nat) as [Hle' Hfail].
        change (written_chunks (EvSrcClose k :: ?l)) with (written_chunks l).
        change (terminal (EvSrcClose k :: ?l)) with (terminal l).
        split; [lia|]. intros j e Hin.
        repeat (apply elem_of_cons in Hin as [?|Hin]; [done|]).
        apply elem_of_app in Hin as [Hin|Hin]; [by apply Hno in Hin|].
        apply elem_of_cons in Hin as [?|Hin]; [done|].
        destruct (Hfail j e Hin) as (-> & Hlen & ->).
        rewrite Hclose. split; [done|]. split; [lia | done].
      * simpl. rewrite app_nil_r. split; [lia|]. intros j e Hin.
        repeat (apply elem_of_cons in Hin as [?|Hin]; [done|]).
        try rewrite app_nil_r in Hin.
        destruct (Hexit j e Hin) as (-> & Hlen & ->).
        split; [done|]. split; [lia|]. done.
Qed.

(** X16: a consumer that closes the pipe stops the producer.  When the
    consumer closes the read side after taking [n] chunks, the producer
    writes at most [n] chunks; if one of its writes fails, it fails with
    [io.ErrClosedPipe] after exactly [n] chunks and the pipe is closed with
    that error.  With a consumer that never closes, no write fails. *)
Theorem consumer_close_stops_producer ops :
  (∀ n,
     (length (written_chunks (producer ops (Some n))) ≤ n)%nat ∧
     ∀ j e, EvWriteFailed j e ∈ producer ops (Some n) →
       e = ErrClosedPipe ∧
       length (written_chunks (producer ops (Some n))) = n ∧
       terminal (producer ops (Some n)) = Some ErrClosedPipe) ∧
  (∀ j e, EvWriteFailed j e ∉ producer ops None).
Proof.
  split.
  - intros n. destruct (muxLoop_patience 0 ops n) as [Hle Hfail].
    unfold producer. rewrite written_chunks_app, length_app, terminal_app. simpl.
    split; [lia|]. intros j e Hin.
    apply elem_of_app in Hin as [Hin|Hin].
    + destruct (Hfail j e Hin) as (-> & Hlen & ->). split; [done|].
      split; [lia | done].
    + repeat (apply elem_of_cons in Hin as [?|Hin]; [done|]).
      by apply elem_of_nil in Hin.
  - intros j e Hin. unfold producer in Hin.
    apply elem_of_app in Hin as [Hin|Hin].
    + revert Hin. generalize 0%nat.
      induction ops as [|op ops IH]; intros k; simpl; [by intros ?%elem_of_nil|].
      destruct (opener.Open op) as [err|rc].
      * intros [?|[?|?%elem_of_nil]%elem_of_cons]%elem_of_cons; done.
      * destruct (streamLoop_None k (opener.Name op) rc (boundary_of op))
          as (evs & Hloop & Hw & Ht).
        unfold boundary_of in Hloop. rewrite Hloop. intros Hin.
        repeat (apply elem_of_cons in Hin as [?|Hin]; [done|]).
        apply elem_of_app in Hin as [Hin|Hin].
        -- apply (terminal_None_no_fail evs k (opener.Name op) rc
                    (boundary_of op) _ Hloop j e Hin).
        -- destruct (decide (read_error rc = EOF)); [|by apply elem_of_nil in Hin].
           apply elem_of_cons in Hin as [?|Hin]; [done|]. by apply IH in Hin.
    + repeat (apply elem_of_cons in Hin as [?|Hin]; [done|]).
      by apply elem_of_nil in Hin.
Qed.

Lemma consumer_close_stops_producer_witness :
  ErrClosedPipe = ErrClosedPipe ∧
  length (written_chunks (producer samples.ops_hello (Some 1))) = 1%nat ∧
  terminal (producer samples.ops_hello (Some 1)) = Some ErrClosedPipe.
Proof.
  destruct (consumer_close_stops_producer samples.ops_hello) as [Hclose _].
  destruct (Hclose 1%nat) as [_ Hfail].
  apply (Hfail 1%nat ErrClosedPipe). vm_compute. do 9 right. left.
Defined.

(** ** In-memory sources *)






End multiplexer_more.

(** * Properties of the mapped iterator *)

Section mapped_iterator.

Import decode_map_transform.

Context {I E T : Type} (R : RecordIterator I E).

Implicit Types (m : mappedIterator I E T).

(** X18: a [false] from the mapped iterator is final.  When [Next] returns
    [false], for whatever reason, the iterator is marked done, and every
    further [Next] returns [false] and leaves the iterator, and with it the
    inner iterator, as it is; so does [Next] after [Close]. *)
Theorem mapped_Next_false_is_final m m' :
  Next R m = Some (false, m') →
  done m' = true ∧ Next R m' = Some (false, m') ∧
  Next R (Close R m).2 = Some (false, (Close R m).2).
Proof.
  intros Hnext.
  assert (done m' = true) as Hdone.
  { unfold Next in Hnext. destruct (done m) eqn:Hd; [by simplify_eq|].
    destruct (err m); [by simplify_eq|].
    destruct (ri_Next R (inner m)) as [[[|] i]|]; [|by simplify_eq|done].
    destruct (mapFn m (ri_Record R i)) as [v [e|]]; by simplify_eq. }
  split; [done|]. split.
  - unfold Next. by rewrite Hdone.
  - unfold Close. by destruct (ri_Close R (inner m)).
Qed.

(** X19: the mapper's error stops the iteration and is the one reported.
    When the inner iterator serves a record and the mapper rejects it,
    [Next] returns [false], [Struct] keeps its value, and [Err] returns the
    mapper's error, whatever the inner iterator's [Err] is; while no mapper
    call has failed, [Err] is the inner iterator's. *)
Theorem mapper_error_is_reported m i v e :
  done m = false → err m = None →
  ri_Next R (inner m) = Some (true, i) →
  mapFn m (ri_Record R i) = (v, Some e) →
  Err R m = ri_Err R (inner m) ∧
  ∃ m', Next R m = Some (false, m') ∧ Err R m' = Some e ∧
        Struct m' = Struct m ∧ inner m' = i.
Proof.
  intros Hd He Hin Hmap. split; [unfold Err; by rewrite He|].
  eexists. unfold Next. rewrite Hd, He, Hin, Hmap. done.
Qed.

Lemma collect_map_until m n :
  done m = false → err m = None →
  collect R n m = map_until (mapFn m) (served R n (inner m)).
Proof.
  revert m. induction n as [|n IH]; intros m Hd He; [done|].
  simpl. unfold Next. rewrite Hd, He.
  destruct (ri_Next R (inner m)) as [[[|] i]|]; [|done..].
  simpl. destruct (mapFn m (ri_Record R i)) as [v [e|]] eqn:Hmap; [done|].
  unfold Struct at 1. simpl. f_equal. by rewrite IH.
Qed.

(** X20: the mapped iterator maps the inner records in order.  On a mapped
    iterator that is not done and holds no error, the values served over
    [n] calls of [Next] are the images under the mapper of the records the
    inner iterator serves over [n] calls, in order, up to the first record
    the mapper rejects. *)
Theorem mapped_values m n :
  done m = false → err m = None →
  collect R n m = map_until (mapFn m) (served R n (inner m)).
Proof. apply collect_map_until. Qed.

End mapped_iterator.

Section mapped_csv.

Import connector transform decode_map_transform.

(** X21: [Transform] composed with the CSV decoder.  With a mapper, the
    iterator [Transform] returns over [Decode] serves the images of the
    records the CSV iterator serves, in order, up to the first the mapper
    rejects; without a mapper, or when [Decode] fails, it returns the error
    and no iterator. *)
Theorem Transform_over_csv d rc f fuel close n :
  Transform (Decode d) rc (None : option (Mapper sliceExtractor string)) "" =
    inl (ErrNew "transform: Mapper[T] must not be nil") ∧
  (∀ e, Decode d rc = inl e → Transform (Decode d) rc (Some f) "" = inl e) ∧
  (∀ it, Decode d rc = inr it →
     ∃ m, Transform (Decode d) rc (Some f) "" = inr m ∧
          collect (csvRecordIterator fuel close) n m =
            map_until f (served (csvRecordIterator fuel close) n it)).
Proof.
  split; [done|]. split.
  - intros e He. unfold Transform. by rewrite He.
  - intros it Hit. unfold Transform. rewrite Hit. eexists. split; [done|].
    by rewrite collect_map_until.
Qed.

Lemma Transform_over_csv_witness :
  ∃ m, Transform (Decode samples.inferring) samples.rc_header_skip
         (Some first_field) "" = inr m ∧
       collect (csvRecordIterator 3 (fun it => (None, it))) 3 m = ["a1"; "a2"].
Proof.
  destruct (Transform_over_csv samples.inferring samples.rc_header_skip
              first_field 3 (fun it => (None, it)) 3) as (_ & _ & Hok).
  assert (NoDup ["col1"; "col2"]) as Hnd.
  { apply NoDup_cons. split; [|apply NoDup_singleton].
    intros [?|?%elem_of_nil]%elem_of_cons; done. }
  pose proof (Decode_inferred samples.inferring samples.rc_header_skip
                ["col1"; "col2"] (samples.src1 16) _ eq_refl eq_refl Hnd) as Hdec.
  destruct (Hok _ Hdec) as (m & Htr & Hcollect).
  exists m. split; [done|]. rewrite Hcollect. by vm_compute.
Defined.

Lemma mapped_Next_false_is_final_witness :
  decode_map_transform.Next (csvRecordIterator 3 (fun it => (None, it)))
    (mapped_over samples.it_header first_field true) =
    Some (false, mapped_over samples.it_header first_field true).
Proof.
  apply (mapped_Next_false_is_final (csvRecordIterator 3 (fun it => (None, it)))
           (mapped_over samples.it_header first_field true)
           (mapped_over samples.it_header first_field true)).
  reflexivity.
Defined.

Lemma mapper_error_is_reported_witness :
  ∃ m', decode_map_transform.Next (csvRecordIterator 3 (fun it => (None, it)))
          (mapped_over samples.it_mismatch always_fails false) = Some (false, m') ∧
        decode_map_transform.Err (csvRecordIterator 3 (fun it => (None, it))) m' =
          Some (ErrNew "boom").
Proof.
  destruct (transform.Next 3 samples.it_mismatch) as [[[|] i]|] eqn:Hnext;
    [|exfalso; revert Hnext; by vm_compute..].
  destruct (mapper_error_is_reported (csvRecordIterator 3 (fun it => (None, it)))
              (mapped_over samples.it_mismatch always_fails false) i ""
              (ErrNew "boom") eq_refl eq_refl Hnext eq_refl)
    as (_ & m' & Hfalse & Herr & _).
  by exists m'.
Defined.

Lemma mapped_values_witness :
  collect (csvRecordIterator 3 (fun it => (None, it))) 3
    (mapped_over samples.it_header first_field false) =
    map_until first_field
      (served (csvRecordIterator 3 (fun it => (None, it))) 3 samples.it_header).
Proof.
  apply (mapped_values (csvRecordIterator 3 (fun it => (None, it)))
           (mapped_over samples.it_header first_field false) 3); reflexivity.
Defined.

End mapped_csv.
